(** * PixelHeart mood garden: streak counter and local/cloud synchronisation

    A shallow embedding of the logic of [src/App.tsx] ([calculateStreak]),
    [src/services/db.ts] and [src/services/supabase.ts], with the properties
    of the diary's streak counter, of the local-first / cloud-first
    synchroniser and of the CSV export.

    Layout: the JavaScript runtime primitives the code relies on (numbers
    with NaN, [Number] on strings, [Date] with the host's time zone,
    [Array.prototype.sort]) come first, then the program's functions, then
    the theorems. *)

From Stdlib Require Import ZArith List String Ascii Bool Lia.
From Stdlib Require Import Sorting.Sorted Sorting.Permutation.
Import ListNotations.

Local Open Scope Z_scope.

(* ------------------------------------------------------------------ *)
(** * Data model ([src/types.ts], [src/services/supabase.ts])          *)
(* ------------------------------------------------------------------ *)

(** [interface Memory] of [src/types.ts]. *)
Record Memory : Type := mkMemory {
  id : string;
  date : string;
  mood : string;
  imageUrl : string;
  summary : string
}.

(** [interface CloudMemory] of [src/services/supabase.ts]: a row of the
    remote table. [created_at] is optional and assigned by the server. *)
Record CloudMemory : Type := mkCloudMemory {
  c_id : string;
  c_date : string;
  c_mood : string;
  image_url : string;
  c_summary : string;
  created_at : option string
}.

(* ------------------------------------------------------------------ *)
(** * JavaScript runtime primitives                                    *)
(* ------------------------------------------------------------------ *)

Module JS.

(** A JavaScript number as far as this program uses them: an integer, or
    NaN ([None]). *)
Definition num : Type := option Z.

Definition NaN : num := None.

(** [a - b]: NaN when either operand is NaN. *)
Definition sub (a b : num) : num :=
  match a, b with
  | Some x, Some y => Some (x - y)
  | _, _ => NaN
  end.

(** [a === b] on numbers: NaN is equal to nothing, itself included. *)
Definition strictEq (a b : num) : bool :=
  match a, b with
  | Some x, Some y => x =? y
  | _, _ => false
  end.

(** Value of a decimal digit, [None] for any other character. *)
Definition digitVal (c : ascii) : option Z :=
  let n := nat_of_ascii c in
  if ((48 <=? n) && (n <=? 57))%nat then Some (Z.of_nat (n - 48)) else None.

Fixpoint parseDigits (acc : Z) (s : string) : num :=
  match s with
  | EmptyString => Some acc
  | String c s' =>
      match digitVal c with
      | Some d => parseDigits (10 * acc + d) s'
      | None => NaN
      end
  end.

(** [Number(s)] on the strings the program stores as ids, the output of
    [Date.now().toString()]: a run of decimal digits denotes its value and
    the empty string denotes 0.  The other literal forms [Number] accepts
    (sign, fraction, exponent, radix prefix, surrounding white space,
    Infinity) are not ids the program writes; they are read as NaN here and
    every theorem below that looks at the value of an id states which ids it
    covers.  The value is exact up to 2^53; [TimeClip] below rejects
    everything above 8.64e15, so dates never see a rounded value. *)
Definition Number (s : string) : num := parseDigits 0 s.

(** ** [Date] (ECMAScript, "Date Objects") *)

Definition msPerDay : Z := 86400000.

(** Largest magnitude of a time value, 8.64e15 ms. *)
Definition maxTime : Z := 8640000000000000.

Definition TimeClip (t : Z) : num :=
  if Z.abs t <=? maxTime then Some t else NaN.

(** [Day(t)]: the day number of a time value, rounding down. *)
Definition Day (t : Z) : Z := t / msPerDay.

Section HostTimeZone.

(** [LocalTZA t isUTC]: the host's local time zone adjustment in
    milliseconds, at the UTC instant [t] when [isUTC] is true and at the
    local time [t] otherwise.  It is the rule of the zone the browser runs
    in, daylight saving included. *)
Variable LocalTZA : Z -> bool -> Z.

Definition LocalTime (t : Z) : Z := t + LocalTZA t true.

Definition UTC (t : Z) : Z := t - LocalTZA t false.

(** [new Date(v)]: the time value of the new object. *)
Definition newDate (v : num) : num :=
  match v with
  | Some t => TimeClip t
  | None => NaN
  end.

(** [d.setHours(0, 0, 0, 0); d.getTime()]: local midnight of the local
    day the time value [tv] falls on. *)
Definition setHours0 (tv : num) : num :=
  match tv with
  | Some t => TimeClip (UTC (Day (LocalTime t) * msPerDay))
  | None => NaN
  end.

(** Number of the local calendar day an instant falls on. *)
Definition localDay (t : Z) : Z := Day (LocalTime t).

End HostTimeZone.

(** ** [Array.prototype.sort] with a comparator

    The sort is stable, and a comparator result that is NaN counts as 0.
    For a consistent comparator the result is the one stable insertion
    yields: [x] goes in front of the first [y] it does not have to follow. *)
Section Sort.
Context {A : Type}.

Section Insertion.
Variable before : A -> A -> bool.

Fixpoint insertBy (x : A) (l : list A) : list A :=
  match l with
  | [] => [x]
  | y :: l' => if before x y then x :: l else y :: insertBy x l'
  end.

Definition sortBy (l : list A) : list A := fold_right insertBy [] l.
End Insertion.

Variable compareFn : A -> A -> num.

(** [x] may stay in front of [y]: the comparator's result is not
    positive (NaN is read as 0). *)
Definition sortCompareLe (x y : A) : bool :=
  match compareFn x y with
  | Some v => v <=? 0
  | None => true
  end.

Definition sort (l : list A) : list A := sortBy sortCompareLe l.
End Sort.

End JS.

(* ------------------------------------------------------------------ *)
(** * Streak calculator ([calculateStreak], [src/App.tsx])             *)
(* ------------------------------------------------------------------ *)

Section Streak.

Variable LocalTZA : Z -> bool -> Z.

(** [new Date(v); setHours(0,0,0,0); getTime()]. *)
Definition midnightOf (v : JS.num) : JS.num :=
  JS.setHours0 LocalTZA (JS.newDate v).

Definition oneDay : Z := 24 * 60 * 60 * 1000.

(** The [for] loop of [calculateStreak]: [prev] is [memories[i - 1]],
    the head of [rest] is [memories[i]]. *)
Fixpoint streakLoop (prev : Memory) (rest : list Memory) (currentStreak : Z) : Z :=
  match rest with
  | [] => currentStreak
  | curr :: rest' =>
      let prevD := midnightOf (JS.Number (id prev)) in
      let currD := midnightOf (JS.Number (id curr)) in
      let diff := JS.sub prevD currD in
      if JS.strictEq diff (Some oneDay) then streakLoop curr rest' (currentStreak + 1)
      else if JS.strictEq diff (Some 0) then streakLoop curr rest' currentStreak
      else currentStreak
  end.

(** [calculateStreak(memories)], with the clock reading [now] that
    [new Date()] returns made explicit. *)
Definition calculateStreak (now : Z) (memories : list Memory) : Z :=
  match memories with
  | [] => 0
  | latest :: rest =>
      let today := midnightOf (Some now) in
      let latestDate := midnightOf (JS.Number (id latest)) in
      if JS.strictEq latestDate today then streakLoop latest rest 1
      else if JS.strictEq latestDate (JS.sub today (Some oneDay)) then streakLoop latest rest 1
      else 0
  end.

(** The local calendar day of an entry, read off its id; [None] when the
    id is not a valid time value. *)
Definition calendarDay (m : Memory) : option Z :=
  match JS.newDate (JS.Number (id m)) with
  | Some t => Some (JS.localDay LocalTZA t)
  | None => None
  end.

End Streak.

(** ** Vocabulary of the streak properties *)

Section StreakVocabulary.

Variable LocalTZA : Z -> bool -> Z.

(** Local midnight of the day an entry was created, as the loop computes
    it from the id. *)
Definition dayStart (m : Memory) : JS.num :=
  midnightOf LocalTZA (JS.Number (id m)).

(** The loop and the function on the list of local midnights alone: what
    [calculateStreak] returns depends on the entries through these values
    only ([calculateStreak_on_dayStarts] below). *)
Fixpoint walkDays (prev : JS.num) (rest : list JS.num) (currentStreak : Z) : Z :=
  match rest with
  | [] => currentStreak
  | curr :: rest' =>
      let diff := JS.sub prev curr in
      if JS.strictEq diff (Some oneDay) then walkDays curr rest' (currentStreak + 1)
      else if JS.strictEq diff (Some 0) then walkDays curr rest' currentStreak
      else currentStreak
  end.

Definition streakDays (today : JS.num) (days : list JS.num) : Z :=
  match days with
  | [] => 0
  | latest :: rest =>
      if JS.strictEq latest today then walkDays latest rest 1
      else if JS.strictEq latest (JS.sub today (Some oneDay)) then walkDays latest rest 1
      else 0
  end.

(** The zone keeps one offset from UTC for ever: no daylight saving, no
    change of standard time. *)
Definition zoneFixedOffset (offset : Z) : Prop :=
  forall t isUTC, LocalTZA t isUTC = offset.

(** The offsets of the zone stay within one day of each other. *)
Definition zoneSpanUnderDay : Prop :=
  forall t t' b b', Z.abs (LocalTZA t b - LocalTZA t' b') < JS.msPerDay.

(** The local calendar never steps back to an earlier day as time
    passes. *)
Definition zoneDayMonotone : Prop :=
  forall t t', t <= t' -> JS.localDay LocalTZA t <= JS.localDay LocalTZA t'.

(** The entries of [l] have timestamp ids that fall on the calendar days
    [d], [d - 1], [d - 2], ... in this order. *)
Fixpoint onConsecutiveDays (d : Z) (l : list Memory) : Prop :=
  match l with
  | [] => True
  | m :: l' =>
      (exists ts, JS.Number (id m) = Some ts /\ 0 <= ts <= JS.maxTime)
      /\ calendarDay LocalTZA m = Some d
      /\ onConsecutiveDays (d - 1) l'
  end.

(** [dayRun d l last]: the entries of [l] have timestamp ids; read in
    order, each falls on the calendar day of the one before it or on the
    day before that one, where [d] is the day of the entry that stands in
    front of [l]; [last] is the day of the last entry ([d] when [l] is
    empty). *)
Inductive dayRun : Z -> list Memory -> Z -> Prop :=
| run_end (d : Z) : dayRun d [] d
| run_same (d : Z) (m : Memory) (l : list Memory) (last : Z) :
    (exists ts, JS.Number (id m) = Some ts /\ 0 <= ts <= JS.maxTime) ->
    calendarDay LocalTZA m = Some d ->
    dayRun d l last ->
    dayRun d (m :: l) last
| run_prev (d : Z) (m : Memory) (l : list Memory) (last : Z) :
    (exists ts, JS.Number (id m) = Some ts /\ 0 <= ts <= JS.maxTime) ->
    calendarDay LocalTZA m = Some (d - 1) ->
    dayRun (d - 1) l last ->
    dayRun d (m :: l) last.

End StreakVocabulary.

(** Two host zones used to run the code on concrete inputs. *)

(** A host on UTC. *)
Definition zoneUTC : Z -> bool -> Z := fun _ _ => 0.

(** Europe/London around the spring of 2025: GMT until 2025-03-30T01:00:00Z
    (epoch 1743296400000), British Summer Time (UTC+1) from then on.  Local
    times in the skipped hour are read with the offset in force before the
    change. *)
Definition londonSpringForward : Z := 1743296400000.

Definition zoneLondon : Z -> bool -> Z := fun t isUTC =>
  if isUTC
  then (if t <? londonSpringForward then 0 else 3600000)
  else (if t <? londonSpringForward + 3600000 then 0 else 3600000).

(* ------------------------------------------------------------------ *)
(** * Execution model of the asynchronous services                     *)
(* ------------------------------------------------------------------ *)

(** What can happen to one HTTP request to the remote store: the server
    applies it, the server answers with an error, or the call fails with an
    exception. *)
Inductive Link : Type := Served | Refused | Broken.

(** The state the services act on. *)
Record World : Type := mkWorld {
  idb : list Memory;            (** object store 'memories' of IndexedDB, in key order *)
  supabaseAnonKey : string;     (** the empty string when the client is not configured *)
  cloudTable : list CloudMemory;  (** the remote table 'memories' *)
  requests : nat;               (** number of requests sent to the remote store so far *)
  inflight : list Memory        (** [saveMemoryToCloud] calls started and not awaited *)
}.

Definition setIdb (s : list Memory) (w : World) : World :=
  mkWorld s (supabaseAnonKey w) (cloudTable w) (requests w) (inflight w).

Definition setCloudTable (t : list CloudMemory) (w : World) : World :=
  mkWorld (idb w) (supabaseAnonKey w) t (requests w) (inflight w).

Definition setRequests (n : nat) (w : World) : World :=
  mkWorld (idb w) (supabaseAnonKey w) (cloudTable w) n (inflight w).

Definition setInflight (q : list Memory) (w : World) : World :=
  mkWorld (idb w) (supabaseAnonKey w) (cloudTable w) (requests w) q.

Inductive Exn : Type := NetworkError.

(** How an awaited call completes: it returns a value or it throws. *)
Inductive Completion (A : Type) : Type :=
| Returns (a : A)
| Throws (e : Exn).

Arguments Returns {A} a.
Arguments Throws {A} e.

(** An [async] function: from the state before to its completion and the
    state after. *)
Definition Async (A : Type) : Type := World -> Completion A * World.

Definition ret {A : Type} (a : A) : Async A := fun w => (Returns a, w).

Definition throw {A : Type} (e : Exn) : Async A := fun w => (Throws e, w).

Definition bind {A B : Type} (m : Async A) (k : A -> Async B) : Async B :=
  fun w =>
    match m w with
    | (Returns a, w') => k a w'
    | (Throws e, w') => (Throws e, w')
    end.

(** [try { body } catch (err) { handler }]: what [body] did to the state
    before it threw stays done. *)
Definition tryCatch {A : Type} (body : Async A) (handler : Exn -> Async A) : Async A :=
  fun w =>
    match body w with
    | (Returns a, w') => (Returns a, w')
    | (Throws e, w') => handler e w'
    end.

Declare Scope async_scope.
Delimit Scope async_scope with async.
Notation "x <- m ;; k" := (bind m (fun x => k))
  (at level 61, m at next level, right associativity) : async_scope.
Notation "m ;;; k" := (bind m (fun _ => k))
  (at level 61, right associativity) : async_scope.

Local Open Scope async_scope.
Local Open Scope string_scope.

(** The truthiness test [!s] on a string. *)
Definition isEmptyString (s : string) : bool :=
  match s with
  | EmptyString => true
  | String _ _ => false
  end.

(* ------------------------------------------------------------------ *)
(** * Remote record store ([src/services/supabase.ts])                 *)
(* ------------------------------------------------------------------ *)

(** The server's [upsert] on the primary key [id]: the row with that id is
    replaced where it stands, a new id is added. *)
Fixpoint upsertRow (row : CloudMemory) (t : list CloudMemory) : list CloudMemory :=
  match t with
  | [] => [row]
  | r :: t' =>
      if String.eqb (c_id r) (c_id row) then row :: t' else r :: upsertRow row t'
  end.

(** The server's [order('id', { ascending: false })] on the text column. *)
Definition orderByIdDesc (t : list CloudMemory) : list CloudMemory :=
  JS.sortBy (fun x y => String.leb (c_id y) (c_id x)) t.

(** The object a query of the client resolves to. *)
Record PostgrestResponse : Type := mkResponse {
  data : option (list CloudMemory);
  error : bool
}.

Section Network.

(** [link n]: the fate of the [n]-th request sent to the remote store. *)
Variable link : nat -> Link.

(** [await supabase.from('memories').upsert(row)]. *)
Definition supabaseUpsert (row : CloudMemory) : Async PostgrestResponse :=
  fun w =>
    let w' := setRequests (S (requests w)) w in
    match link (requests w) with
    | Served => (Returns (mkResponse None false), setCloudTable (upsertRow row (cloudTable w)) w')
    | Refused => (Returns (mkResponse None true), w')
    | Broken => (Throws NetworkError, w')
    end.

(** [await supabase.from('memories').select('*').order('id', ...)]. *)
Definition supabaseSelect : Async PostgrestResponse :=
  fun w =>
    let w' := setRequests (S (requests w)) w in
    match link (requests w) with
    | Served => (Returns (mkResponse (Some (orderByIdDesc (cloudTable w))) false), w')
    | Refused => (Returns (mkResponse None true), w')
    | Broken => (Throws NetworkError, w')
    end.

(** The row [saveMemoryToCloud] sends. *)
Definition toCloudRow (memory : Memory) : CloudMemory :=
  mkCloudMemory (id memory) (date memory) (mood memory) (imageUrl memory)
                (summary memory) None.

Definition saveMemoryToCloud (memory : Memory) : Async bool :=
  tryCatch
    (fun w =>
       if isEmptyString (supabaseAnonKey w) then ret false w
       else (r <- supabaseUpsert (toCloudRow memory) ;;
             if error r then ret false else ret true) w)
    (fun _ => ret false).

Definition getMemoriesFromCloud : Async (list CloudMemory) :=
  tryCatch
    (fun w =>
       if isEmptyString (supabaseAnonKey w) then ret [] w
       else (r <- supabaseSelect ;;
             if error r then ret []
             else ret (match data r with Some rows => rows | None => [] end)) w)
    (fun _ => ret []).

End Network.

(* ------------------------------------------------------------------ *)
(** * Local record store and synchroniser ([src/services/db.ts])       *)
(* ------------------------------------------------------------------ *)

(** [db.put('memories', memory)] with key path [id]: the record under that
    key is replaced, a new key is stored at its place in key order. *)
Fixpoint idbPut (memory : Memory) (store : list Memory) : list Memory :=
  match store with
  | [] => [memory]
  | x :: store' =>
      match String.compare (id memory) (id x) with
      | Lt => memory :: store
      | Eq => memory :: store'
      | Gt => x :: idbPut memory store'
      end
  end.

(** [db.delete('memories', key)]. *)
Definition idbDelete (key : string) (store : list Memory) : list Memory :=
  filter (fun x => negb (String.eqb (id x) key)) store.

Definition dbPut (memory : Memory) : Async unit :=
  fun w => (Returns tt, setIdb (idbPut memory (idb w)) w).

Definition dbGetAll : Async (list Memory) :=
  fun w => (Returns (idb w), w).

Definition dbDelete (key : string) : Async unit :=
  fun w => (Returns tt, setIdb (idbDelete key (idb w)) w).

(** A call that is started and not awaited: it joins the calls in flight. *)
Definition spawnCloudSave (memory : Memory) : Async unit :=
  fun w => (Returns tt, setInflight (inflight w ++ [memory]) w).

(** The mapping of a remote row to the local shape in [getMemories]. *)
Definition fromCloudRow (m : CloudMemory) : Memory :=
  mkMemory (c_id m) (c_date m) (c_mood m) (image_url m) (c_summary m).

(** The comparator [(a, b) => Number(b.id) - Number(a.id)]. *)
Definition byIdDesc (a b : Memory) : JS.num :=
  JS.sub (JS.Number (id b)) (JS.Number (id a)).

Section Synchroniser.

Variable link : nat -> Link.

Definition saveMemory (memory : Memory) : Async unit :=
  dbPut memory ;;;
  spawnCloudSave memory.

(** The oldest call in flight runs to its end; [.catch] swallows a
    rejection. *)
Definition settleCloudSave : Async unit :=
  fun w =>
    match inflight w with
    | [] => (Returns tt, w)
    | memory :: q =>
        tryCatch (saveMemoryToCloud link memory ;;; ret tt) (fun _ => ret tt)
                 (setInflight q w)
    end.

Definition getMemories : Async (list Memory) :=
  fromCloud <- tryCatch
                 (cloudMemories <- getMemoriesFromCloud link ;;
                  if (0 <? List.length cloudMemories)%nat
                  then ret (Some (map fromCloudRow cloudMemories))
                  else ret None)
                 (fun _ => ret None) ;;
  match fromCloud with
  | Some memories => ret memories
  | None =>
      memories <- dbGetAll ;;
      ret (JS.sort byIdDesc memories)
  end.

Definition deleteMemory (key : string) : Async unit :=
  dbDelete key.

(** The body of the [for ... of] loop of [syncLocalToCloud] and the loop
    itself, over the counters [synced] and [failed]. *)
Fixpoint syncLoop (localMemories : list Memory) (synced failed : nat)
  : Async (nat * nat) :=
  match localMemories with
  | [] => ret (synced, failed)
  | memory :: rest =>
      counters <- tryCatch
                    (success <- saveMemoryToCloud link memory ;;
                     if success then ret (S synced, failed)
                     else ret (synced, S failed))
                    (fun _ => ret (synced, S failed)) ;;
      syncLoop rest (fst counters) (snd counters)
  end.

Definition syncLocalToCloud : Async (nat * nat) :=
  localMemories <- dbGetAll ;;
  syncLoop localMemories 0%nat 0%nat.

(** ** CSV export *)

Definition dquote : ascii := ascii_of_nat 34.

Definition newline : string := String (ascii_of_nat 10) EmptyString.

(** The [replace] of [exportMemoriesToCSV]: every double quote of [s]
    becomes two. *)
Fixpoint replaceQuotes (s : string) : string :=
  match s with
  | EmptyString => EmptyString
  | String c s' =>
      if Ascii.eqb c dquote
      then String dquote (String dquote (replaceQuotes s'))
      else String c (replaceQuotes s')
  end.

(** The template literal that puts [s] between two double quotes. *)
Definition quoted (s : string) : string :=
  String dquote (s ++ String dquote EmptyString).

Definition headers : list string := ["Date"; "Mood"; "Summary"; "Image URL"].

(** The array [[date, mood, summary, image]] built for one memory.  A
    field of [Memory] is a string, on which [s || ''] is [s]. *)
Definition csvFields (m : Memory) : list string :=
  [ quoted (date m);
    quoted (replaceQuotes (mood m));
    quoted (replaceQuotes (summary m));
    quoted (substring 0 100 (imageUrl m) ++ "...") ].

Definition csvRow (m : Memory) : string := String.concat "," (csvFields m).

Definition exportMemoriesToCSV : Async (option string) :=
  memories <- getMemories ;;
  if (List.length memories =? 0)%nat then ret None
  else ret (Some (String.concat newline
                    (String.concat "," headers :: map csvRow memories))).

End Synchroniser.

(** ** Vocabulary of the properties *)

(** A field is wrapped in double quotes and every double quote inside the
    wrapping is one of a doubled pair. *)
Fixpoint quotesPaired (s : string) (pending : bool) : bool :=
  match s with
  | EmptyString => negb pending
  | String c s' =>
      if Ascii.eqb c dquote then quotesPaired s' (negb pending)
      else if pending then false else quotesPaired s' false
  end.

Fixpoint dropLast (s : string) : option (string * ascii) :=
  match s with
  | EmptyString => None
  | String c EmptyString => Some (EmptyString, c)
  | String c s' =>
      match dropLast s' with
      | Some (body, z) => Some (String c body, z)
      | None => None
      end
  end.

Definition wellQuoted (field : string) : bool :=
  match field with
  | EmptyString => false
  | String c s =>
      Ascii.eqb c dquote &&
      match dropLast s with
      | Some (body, z) => Ascii.eqb z dquote && quotesPaired body false
      | None => false
      end
  end.

(** Pushes of a reconciliation pass the remote store applies: the pass
    sends one request per local entry when the client is configured, none
    otherwise. *)
Definition isServed (l : Link) : bool :=
  match l with
  | Served => true
  | Refused | Broken => false
  end.

Fixpoint servedFrom (link : nat -> Link) (start n : nat) : nat :=
  match n with
  | O => O
  | S n' => ((if isServed (link start) then 1 else 0) + servedFrom link (S start) n')%nat
  end.

Definition pushesServed (link : nat -> Link) (w : World) : nat :=
  if isEmptyString (supabaseAnonKey w) then O
  else servedFrom link (requests w) (List.length (idb w)).

(** The id is one [Date.now().toString()] can produce: decimal digits that
    denote a valid time value. *)
Definition timestampId (s : string) : Prop :=
  exists ts, JS.Number s = Some ts /\ 0 <= ts <= JS.maxTime.

(** [a] may stand in front of [b] in a list ordered by the numeric value of
    the id, newest first. *)
Definition idGe (a b : Memory) : Prop :=
  exists x y, JS.Number (id a) = Some x /\ JS.Number (id b) = Some y /\ y <= x.

Definition sortedByIdDesc (l : list Memory) : Prop := StronglySorted idGe l.

(** [m]'s id reads as a number. *)
Definition numericId (m : Memory) : Prop :=
  exists n, JS.Number (id m) = Some n.

(** ** Sample data on which the code is run *)

Definition entry (key : string) : Memory :=
  mkMemory key "Jan 5" "happy" "data:image/png;base64,AAAA" "A quiet moment.".

Definition linkUp : nat -> Link := fun _ => Served.

Definition linkDown : nat -> Link := fun _ => Broken.

(** A device that holds two entries while the remote table holds the first
    of them only. *)
Definition worldPartialRemote : World :=
  mkWorld [entry "1743249600000"; entry "1743332400000"] "anon-key"
          [toCloudRow (entry "1743249600000")] 0 [].

(** A device with a configured client and an empty remote table, holding
    the entry "10". *)
Definition worldOffline : World :=
  mkWorld [entry "10"] "anon-key" [] 0 [].

(** Entries posted from London around the change to summer time, with
    the clock reading of the day they are looked at:
    2025-03-31 12:00 BST, 2025-03-30 12:00 BST, 2025-03-30 10:00 BST,
    2025-03-29 12:00 GMT and 2025-03-28 12:00 GMT; now is 2025-03-31
    14:00 BST. *)
Definition londonNow : Z := 1743426000000.

Definition mar31 : Memory := entry "1743418800000".
Definition mar30 : Memory := entry "1743332400000".
Definition mar30early : Memory := entry "1743325200000".
Definition mar29 : Memory := entry "1743249600000".
Definition mar28 : Memory := entry "1743163200000".

(** An entry whose date and image address hold a double quote, as a row
    written to the remote table by another client may. *)
Definition entryWithQuotes : Memory :=
  mkMemory "1743249600000"
           ("Mar 29 " ++ String dquote "25")
           "happy"
           ("https://cdn.example/a" ++ String dquote "b.png")
           "A quiet moment.".

(** A device whose configured client finds [entryWithQuotes] in the remote
    table. *)
Definition worldQuotes : World :=
  mkWorld [] "anon-key" [toCloudRow entryWithQuotes] 0 [].

(** ** Further vocabulary of the streak *)

Section StreakSteps.

Variable LocalTZA : Z -> bool -> Z.

(** The loop leaves at the step from [a] to [b]: the difference of their
    local midnights is neither 24 hours nor 0 (NaN included). *)
Definition stepBreaks (a b : Memory) : bool :=
  let diff := JS.sub (dayStart LocalTZA a) (dayStart LocalTZA b) in
  negb (JS.strictEq diff (Some oneDay)) && negb (JS.strictEq diff (Some 0)).

End StreakSteps.

(** A host in Riyadh: UTC+3 the whole year. *)
Definition zoneRiyadh : Z -> bool -> Z := fun _ _ => 10800000.

(** ** Vocabulary of the local store *)

(** [a]'s key comes before [b]'s in the order of the object store. *)
Definition keyLt (a b : Memory) : Prop :=
  String.compare (id a) (id b) = Lt.

(** The records of the store are in strictly ascending key order, as
    IndexedDB keeps them; no two of them share a key. *)
Definition keysAscending (store : list Memory) : Prop :=
  StronglySorted keyLt store.

(** ** A reader for the rows of the export

    The quoting convention of CSV (RFC 4180) for a row whose fields are all
    quoted: a field stands between two double quotes, a doubled double
    quote inside stands for one, a comma after the closing quote starts the
    next field.  [readRow] reads a row character by character; it gives the
    values of the fields, or [None] when the row does not follow the
    convention. *)

Inductive ReaderMode : Type :=
| FieldStart    (** the opening quote of a field is due *)
| InField       (** inside the quotes *)
| AfterQuote.   (** a quote was read inside a field: it closes the field or is
                    the first of a doubled pair *)

Fixpoint readRow (row : string) (mode : ReaderMode) (field : string)
         (fields : list string) : option (list string) :=
  match row with
  | EmptyString =>
      match mode with
      | AfterQuote => Some (fields ++ [field])%list
      | FieldStart | InField => None
      end
  | String c row' =>
      match mode with
      | FieldStart =>
          if Ascii.eqb c dquote then readRow row' InField EmptyString fields
          else None
      | InField =>
          if Ascii.eqb c dquote then readRow row' AfterQuote field fields
          else readRow row' InField (field ++ String c EmptyString) fields
      | AfterQuote =>
          if Ascii.eqb c dquote
          then readRow row' InField (field ++ String dquote EmptyString) fields
          else if Ascii.eqb c ","%char
               then readRow row' FieldStart EmptyString (fields ++ [field])%list
               else None
      end
  end.

Definition readCsvRow (row : string) : option (list string) :=
  readRow row FieldStart EmptyString [].

Fixpoint hasQuote (s : string) : bool :=
  match s with
  | EmptyString => false
  | String c s' => Ascii.eqb c dquote || hasQuote s'
  end.

(** An entry whose mood and summary hold commas, double quotes and a line
    break. *)
Definition entryAwkwardText : Memory :=
  mkMemory "1743249600000" "Mar 29"
           ("so, " ++ String dquote ("happy" ++ String dquote EmptyString))
           "data:image/png;base64,AAAA"
           ("one, two" ++ newline ++ "three").

(** ** Vocabulary of the order of ids *)

Fixpoint allDigits (s : string) : bool :=
  match s with
  | EmptyString => true
  | String c s' =>
      match JS.digitVal c with
      | Some _ => allDigits s'
      | None => false
      end
  end.

(** [s] is made of [n] decimal digits. *)
Definition digitsOfLength (n : nat) (s : string) : Prop :=
  allDigits s = true /\ String.length s = n.

(** The number a string of digits denotes (0 on any other string). *)
Definition digitsValue (s : string) : Z :=
  match JS.parseDigits 0 s with
  | Some v => v
  | None => 0
  end.

(** A device whose configured client finds the ids "9" and "10" in the
    remote table. *)
Definition worldNineTen : World :=
  mkWorld [] "anon-key" [toCloudRow (entry "9"); toCloudRow (entry "10")] 0 [].

(* ------------------------------------------------------------------ *)
(** * Posting and migrating entries ([src/App.tsx])                    *)
(* ------------------------------------------------------------------ *)

Definition digitChar (d : Z) : ascii := ascii_of_nat (48 + Z.to_nat d).

Fixpoint printDigits (fuel : nat) (n : Z) (acc : string) : string :=
  match fuel with
  | O => acc
  | S fuel' =>
      let acc' := String (digitChar (n mod 10)) acc in
      if (n <? 10)%Z then acc' else printDigits fuel' (n / 10) acc'
  end.

(** [n.toString()] for an integer [n] from 0 up to 1e21, the range in
    which the decimal digits are written out in full; [Date.now()] is in
    this range.  The binary length of [n] bounds the number of its decimal
    digits. *)
Definition numberToString (n : Z) : string :=
  printDigits (S (Z.to_nat (Z.log2 n))) n EmptyString.

(** The state variables [memories] and [streak] of the component [App]. *)
Record AppState : Type := mkAppState {
  appMemories : list Memory;
  appStreak : Z
}.

Section App.

Variable LocalTZA : Z -> bool -> Z.

(** [String.prototype.trim]. *)
Variable trim : string -> string.

(** The three assignments to [currentSummary] in [handlePost];
    [wishTexts] is [wishes.map(w => w.text)]. *)
Definition currentSummary (inputMood : string) (wishTexts : list string) : string :=
  let trimmed := trim inputMood in
  let noted :=
    if isEmptyString trimmed && (0 <? List.length wishTexts)%nat
    then String.concat ". " wishTexts
    else trimmed in
  if isEmptyString noted then "A quiet moment." else noted.

(** The object [newMemory] of [handlePost]: [clock] is the reading of
    [Date.now()], [dateLabel] the string [toLocaleDateString] returns. *)
Definition newMemory (clock : Z) (dateLabel inputMood : string)
           (wishTexts : list string) (capturedImage : string) : Memory :=
  mkMemory (numberToString clock)
           dateLabel
           (if isEmptyString inputMood
            then (if (0 <? List.length wishTexts)%nat then "Noted" else "Vibing")
            else inputMood)
           capturedImage
           (currentSummary inputMood wishTexts).

(** [handlePost], as far as the stored entries and the streak go: without
    a captured image it takes the photo and returns; with one it saves the
    new memory, puts it in front of [memories] and counts the streak again,
    [now] being the reading of the clock in [calculateStreak]. *)
Definition handlePost (now clock : Z) (dateLabel : string)
           (capturedImage : option string) (inputMood : string)
           (wishTexts : list string) (st : AppState) : Async AppState :=
  match capturedImage with
  | None => ret st
  | Some image =>
      if isEmptyString image then ret st
      else
        let memory := newMemory clock dateLabel inputMood wishTexts image in
        saveMemory memory ;;;
        let updatedMemories := memory :: appMemories st in
        ret (mkAppState updatedMemories
                        (calculateStreak LocalTZA now updatedMemories))
  end.

End App.

(** The loop of [loadData] that saves the entries of the legacy storage
    one after the other. *)
Fixpoint migrateMemories (parsed : list Memory) : Async unit :=
  match parsed with
  | [] => ret tt
  | m :: rest => saveMemory m ;;; migrateMemories rest
  end.

(** A [trim] for inputs without white space at either end. *)
Definition trimNothing : string -> string := fun s => s.

(* ------------------------------------------------------------------ *)
(** * Loading screen ([src/components/LoadingScreen.tsx])              *)
(* ------------------------------------------------------------------ *)

Module LoadingScreen.

Definition TEXT : string := "Shadad's Space".

(** The state variables [displayedText] and [index], and whether
    [onComplete] has been called. *)
Record State : Type := mkState {
  displayedText : string;
  index : nat;
  completed : bool
}.

Definition initial : State := mkState EmptyString 0 false.

(** [TEXT[i]] appended to a string: the character, or the text of
    [undefined] past the end. *)
Definition charAt (i : nat) : string :=
  match String.get i TEXT with
  | Some c => String c EmptyString
  | None => "undefined"
  end.

(** The timeout the effect has set fires: below the length of [TEXT] one
    more character is typed, from there on [onComplete] is called, after
    which the screen is gone and no timeout is set. *)
Definition timeoutFires (st : State) : State :=
  if completed st then st
  else if (index st <? String.length TEXT)%nat
       then mkState (displayedText st ++ charAt (index st)) (S (index st)) false
       else mkState (displayedText st) (index st) true.

End LoadingScreen.

(** America/St_Johns around the autumn of 2010: Newfoundland Daylight Time
    (UTC-2:30) until 2010-11-07T02:31:00Z (epoch 1289097060000), which is
    00:01 local time, Newfoundland Standard Time (UTC-3:30) from then on, so
    that the clocks go back from 00:01 of 11-07 to 23:01 of 11-06.  Local
    times that occur twice are read with the offset in force before the
    change. *)
Definition stJohnsFallBack : Z := 1289097060000.

Definition zoneStJohns : Z -> bool -> Z := fun t isUTC =>
  if isUTC
  then (if (t <? stJohnsFallBack)%Z then -9000000 else -12600000)
  else (if (t <? stJohnsFallBack - 9000000)%Z then -9000000 else -12600000).



(** ** Proof automation *)

(** Proves [idGe a b] on two entries with literal ids. *)
Ltac literal_idGe :=
  eexists; eexists;
  split; [vm_compute; reflexivity
         | split; [vm_compute; reflexivity | vm_compute; discriminate]].

(** Proves [sortedByIdDesc] on a list of entries with literal ids. *)
Ltac literal_sorted :=
  unfold sortedByIdDesc;
  repeat first [ apply SSorted_nil | apply SSorted_cons
               | apply Forall_nil | apply Forall_cons; [literal_idGe|] ].

(** Proves that an entry with a literal id has a timestamp id. *)
Ltac literal_timestamp :=
  eexists; split; [vm_compute; reflexivity | split; vm_compute; discriminate].

(** Closes an equation between two completions that return a pair of
    counters in the same state. *)
Ltac same_counters :=
  apply f_equal2; [apply f_equal; apply f_equal2; lia | reflexivity].

(* ================================================================== *)
(** * Properties                                                       *)
(* ================================================================== *)

(* ------------------------------------------------------------------ *)
(** ** The remote client never throws                                  *)
(* ------------------------------------------------------------------ *)

Section RemoteFacts.

Variable link : nat -> Link.

Lemma saveMemoryToCloud_spec (memory : Memory) (w : World) :
  saveMemoryToCloud link memory w =
    if isEmptyString (supabaseAnonKey w) then (Returns false, w)
    else match link (requests w) with
         | Served =>
             (Returns true,
              setCloudTable (upsertRow (toCloudRow memory) (cloudTable w))
                            (setRequests (S (requests w)) w))
         | Refused | Broken => (Returns false, setRequests (S (requests w)) w)
         end.
Proof.
  unfold saveMemoryToCloud, tryCatch, bind, supabaseUpsert, ret.
  destruct (isEmptyString (supabaseAnonKey w)); [reflexivity|].
  destruct (link (requests w)); reflexivity.
Qed.

Lemma getMemoriesFromCloud_spec (w : World) :
  getMemoriesFromCloud link w =
    if isEmptyString (supabaseAnonKey w) then (Returns [], w)
    else match link (requests w) with
         | Served => (Returns (orderByIdDesc (cloudTable w)), setRequests (S (requests w)) w)
         | Refused | Broken => (Returns [], setRequests (S (requests w)) w)
         end.
Proof.
  unfold getMemoriesFromCloud, tryCatch, bind, supabaseSelect, ret.
  destruct (isEmptyString (supabaseAnonKey w)); [reflexivity|].
  destruct (link (requests w)); reflexivity.
Qed.

Lemma getMemoriesFromCloud_returns (w : World) :
  exists rows w', getMemoriesFromCloud link w = (Returns rows, w')
                  /\ idb w' = idb w /\ cloudTable w' = cloudTable w.
Proof.
  rewrite getMemoriesFromCloud_spec.
  destruct (isEmptyString (supabaseAnonKey w)); [eauto|].
  destruct (link (requests w)); eauto.
Qed.

(** [getMemories] in terms of what the remote store hands back. *)
Lemma getMemories_cases (w w' : World) (rows : list CloudMemory) :
  getMemoriesFromCloud link w = (Returns rows, w') ->
  getMemories link w =
    match rows with
    | [] => (Returns (JS.sort byIdDesc (idb w')), w')
    | _ :: _ => (Returns (map fromCloudRow rows), w')
    end.
Proof.
  intros Hcloud. unfold getMemories, bind, tryCatch. rewrite Hcloud.
  destruct rows; reflexivity.
Qed.

Lemma servedFrom_le (start n : nat) : (servedFrom link start n <= n)%nat.
Proof.
  revert start. induction n as [|n IH]; intros start; simpl; [lia|].
  specialize (IH (S start)). destruct (isServed (link start)); lia.
Qed.

(** The loop of [syncLocalToCloud] from any counters and any state. *)
Lemma syncLoop_spec (localMemories : list Memory) :
  forall (synced failed : nat) (w : World),
  exists w',
    let served := if isEmptyString (supabaseAnonKey w) then O
                  else servedFrom link (requests w) (List.length localMemories) in
    syncLoop link localMemories synced failed w =
      (Returns ((synced + served)%nat,
                (failed + (List.length localMemories - served))%nat), w')
    /\ idb w' = idb w
    /\ supabaseAnonKey w' = supabaseAnonKey w.
Proof.
  induction localMemories as [|memory rest IH]; intros synced failed w.
  - exists w. destruct (isEmptyString (supabaseAnonKey w)); cbn -[Nat.sub];
      (split; [unfold ret; same_counters | split; reflexivity]).
  - cbn [syncLoop]. unfold bind, tryCatch. rewrite saveMemoryToCloud_spec.
    destruct (isEmptyString (supabaseAnonKey w)) eqn:Hkey.
    + cbn -[Nat.sub]. destruct (IH synced (S failed) w) as [w' [Hrun [Hidb Hk]]].
      rewrite Hkey in Hrun. exists w'. rewrite Hrun.
      split; [same_counters | split; assumption].
    + pose proof (servedFrom_le (S (requests w)) (List.length rest)) as Hle.
      destruct (link (requests w)) eqn:Hl; cbn -[Nat.sub].
      * destruct (IH (S synced) failed
                   (setCloudTable (upsertRow (toCloudRow memory) (cloudTable w))
                                  (setRequests (S (requests w)) w)))
          as [w' [Hrun [Hidb Hk]]].
        cbn in Hrun, Hidb, Hk. rewrite Hkey in Hrun.
        exists w'. rewrite Hrun, Hl. cbn -[Nat.sub].
        split; [same_counters | split; assumption].
      * destruct (IH synced (S failed) (setRequests (S (requests w)) w))
          as [w' [Hrun [Hidb Hk]]].
        cbn in Hrun, Hidb, Hk. rewrite Hkey in Hrun.
        exists w'. rewrite Hrun, Hl. cbn -[Nat.sub].
        split; [same_counters | split; assumption].
      * destruct (IH synced (S failed) (setRequests (S (requests w)) w))
          as [w' [Hrun [Hidb Hk]]].
        cbn in Hrun, Hidb, Hk. rewrite Hkey in Hrun.
        exists w'. rewrite Hrun, Hl. cbn -[Nat.sub].
        split; [same_counters | split; assumption].
Qed.

End RemoteFacts.

(* ------------------------------------------------------------------ *)
(** ** Sorting and the two stores                                      *)
(* ------------------------------------------------------------------ *)

Section SortFacts.

Context {A : Type} (before : A -> A -> bool).

Lemma insertBy_Permutation (x : A) (l : list A) :
  Permutation (JS.insertBy before x l) (x :: l).
Proof.
  induction l as [|y l IH]; simpl; [apply Permutation_refl|].
  destruct (before x y); [apply Permutation_refl|].
  apply perm_trans with (y :: x :: l); [now apply perm_skip | apply perm_swap].
Qed.

Lemma sortBy_Permutation (l : list A) : Permutation (JS.sortBy before l) l.
Proof.
  induction l as [|x l IH]; simpl; [apply perm_nil|].
  apply perm_trans with (x :: JS.sortBy before l);
    [apply insertBy_Permutation | now apply perm_skip].
Qed.

Lemma sortBy_In (x : A) (l : list A) : In x l <-> In x (JS.sortBy before l).
Proof.
  split; apply Permutation_in;
    [apply Permutation_sym|]; apply sortBy_Permutation.
Qed.

End SortFacts.

Lemma idGe_trans (a b c : Memory) : idGe a b -> idGe b c -> idGe a c.
Proof.
  intros (x & y & Hx & Hy & Hxy) (y' & z & Hy' & Hz & Hyz).
  rewrite Hy in Hy'. injection Hy' as <-.
  exists x, z. repeat split; [assumption | assumption | lia].
Qed.

(** On ids that read as numbers the comparator of [getMemories] decides
    the order of the values. *)
Lemma sortCompareLe_byIdDesc (a b : Memory) :
  numericId a -> numericId b ->
  if JS.sortCompareLe byIdDesc a b then idGe a b else idGe b a.
Proof.
  intros [x Hx] [y Hy]. unfold JS.sortCompareLe, byIdDesc. rewrite Hx, Hy. simpl.
  destruct (y - x <=? 0)%Z eqn:Hc.
  - apply Z.leb_le in Hc. exists x, y. repeat split; [assumption | assumption | lia].
  - apply Z.leb_gt in Hc. exists y, x. repeat split; [assumption | assumption | lia].
Qed.

Lemma insert_sortedByIdDesc (x : Memory) (l : list Memory) :
  numericId x -> Forall numericId l ->
  sortedByIdDesc l ->
  sortedByIdDesc (JS.insertBy (JS.sortCompareLe byIdDesc) x l).
Proof.
  unfold sortedByIdDesc. intros Hx Hl Hs.
  induction Hs as [|y l Hs IH Hy]; simpl.
  - constructor; constructor.
  - inversion Hl as [|? ? Hny Hnl]; subst.
    pose proof (sortCompareLe_byIdDesc x y Hx Hny) as Hcmp.
    destruct (JS.sortCompareLe byIdDesc x y).
    + constructor; [now constructor|].
      constructor; [assumption|].
      eapply Forall_impl; [|exact Hy]. intros z Hz. now apply idGe_trans with y.
    + constructor; [now apply IH|].
      apply Forall_forall. intros z Hz.
      apply (Permutation_in _ (insertBy_Permutation _ x l)) in Hz.
      destruct Hz as [<-|Hz]; [assumption|].
      rewrite Forall_forall in Hy. now apply Hy.
Qed.

Lemma sort_sortedByIdDesc (l : list Memory) :
  Forall numericId l -> sortedByIdDesc (JS.sort byIdDesc l).
Proof.
  unfold JS.sort. induction l as [|x l IH]; intros Hl; simpl.
  - constructor.
  - inversion Hl as [|? ? Hx Hl']; subst.
    apply insert_sortedByIdDesc; [assumption| |now apply IH].
    apply Forall_forall. intros z Hz. rewrite Forall_forall in Hl'.
    apply Hl'. now apply (proj2 (sortBy_In (JS.sortCompareLe byIdDesc) z l)).
Qed.

Lemma timestampId_numeric (m : Memory) : timestampId (id m) -> numericId m.
Proof. intros (ts & Hts & _). now exists ts. Qed.

Lemma idbPut_In (memory : Memory) (store : list Memory) :
  In memory (idbPut memory store).
Proof.
  induction store as [|x store IH]; simpl; [now left|].
  destruct (String.compare (id memory) (id x)); simpl; auto.
Qed.

Lemma idbDelete_In (key : string) (store : list Memory) (m : Memory) :
  In m (idbDelete key store) <-> In m store /\ id m <> key.
Proof.
  unfold idbDelete. rewrite filter_In, negb_true_iff, String.eqb_neq. reflexivity.
Qed.

(* ------------------------------------------------------------------ *)
(** ** Synchroniser                                                    *)
(* ------------------------------------------------------------------ *)

(** The call [saveMemory] leaves in flight never throws when it runs to
    its end, and it leaves the local store as it is. *)
Lemma settleCloudSave_returns (link : nat -> Link) (w : World) :
  exists w', settleCloudSave link w = (Returns tt, w') /\ idb w' = idb w.
Proof.
  unfold settleCloudSave. destruct (inflight w) as [|memory q]; [eauto|].
  unfold tryCatch, bind. rewrite saveMemoryToCloud_spec. cbn.
  destruct (isEmptyString (supabaseAnonKey w));
    [eexists; split; reflexivity|].
  destruct (link (requests w)); eexists; split; reflexivity.
Qed.

(** C2. When the remote store hands back a non-empty result, [getMemories]
    returns those rows and nothing else, each mapped field by field to the
    local shape ([image_url] to [imageUrl]); an entry the local store holds
    under an id the remote result lacks does not appear in what is
    returned. *)
Theorem getMemories_full_replace
    (link : nat -> Link) (w w' : World) (rows : list CloudMemory) :
  getMemoriesFromCloud link w = (Returns rows, w') ->
  rows <> [] ->
  getMemories link w = (Returns (map fromCloudRow rows), w')
  /\ Forall2 (fun r m => id m = c_id r /\ date m = c_date r /\ mood m = c_mood r
                         /\ imageUrl m = image_url r /\ summary m = c_summary r)
             rows (map fromCloudRow rows)
  /\ forall e, In e (idb w) -> ~ In (id e) (map c_id rows) ->
               forall m, In m (map fromCloudRow rows) -> id m <> id e.
Proof.
  intros Hcloud Hrows. split; [|split].
  - rewrite (getMemories_cases link w w' rows Hcloud).
    destruct rows; [contradiction|reflexivity].
  - clear. induction rows as [|r rows IH]; simpl; [constructor|].
    constructor; [cbn; repeat split | exact IH].
  - intros e _ Hfresh m Hm Heq. apply Hfresh.
    apply in_map_iff in Hm. destruct Hm as (r & <- & Hr).
    cbn in Heq. rewrite <- Heq. now apply in_map.
Qed.

Lemma getMemories_full_replace_witness :
  getMemories linkUp worldPartialRemote
    = (Returns [entry "1743249600000"], setRequests 1 worldPartialRemote)
  /\ forall m, In m [entry "1743249600000"] -> id m <> "1743332400000".
Proof.
  destruct (getMemories_full_replace linkUp worldPartialRemote
              (setRequests 1 worldPartialRemote)
              [toCloudRow (entry "1743249600000")])
    as (Hrun & _ & Habsent).
  - reflexivity.
  - discriminate.
  - split; [exact Hrun|].
    apply (Habsent (entry "1743332400000")).
    + right; left; reflexivity.
    + simpl. intros [H|[]]. discriminate H.
Defined.

(** C3. [saveMemory e] followed at once by [getMemories], while the remote
    store is not configured, does not answer the request, or is empty:
    the call returns the local entries, [e] among them, sorted by
    [JS.sort] with the numeric comparator; when the stored ids are
    timestamps the list is in descending order of their numeric value. *)
Theorem save_then_load_offline
    (link : nat -> Link) (e : Memory) (w : World) :
  isEmptyString (supabaseAnonKey w) = true
  \/ link (requests w) <> Served
  \/ cloudTable w = [] ->
  exists w1 w2 memories,
    saveMemory e w = (Returns tt, w1)
    /\ idb w1 = idbPut e (idb w)
    /\ getMemories link w1 = (Returns memories, w2)
    /\ memories = JS.sort byIdDesc (idb w1)
    /\ In e memories
    /\ Permutation memories (idb w1)
    /\ (Forall (fun m => timestampId (id m)) (idb w1) -> sortedByIdDesc memories).
Proof.
  intros Hremote.
  set (w1 := setInflight (inflight w ++ [e]) (setIdb (idbPut e (idb w)) w)).
  assert (Hload : exists w2, getMemories link w1 = (Returns (JS.sort byIdDesc (idb w1)), w2)).
  { destruct (getMemoriesFromCloud_returns link w1) as (rows & w2 & Hcloud & Hidb & _).
    exists w2. rewrite (getMemories_cases link w1 w2 rows Hcloud), Hidb.
    assert (rows = []) as ->; [|reflexivity].
    rewrite getMemoriesFromCloud_spec in Hcloud. cbn in Hcloud.
    destruct (isEmptyString (supabaseAnonKey w)) eqn:Hkey; [congruence|].
    destruct (link (requests w)) eqn:Hl; try congruence.
    destruct Hremote as [Hk|[Hl'|Ht]]; [discriminate | contradiction |].
    rewrite Ht in Hcloud. cbn in Hcloud. congruence. }
  destruct Hload as [w2 Hload].
  exists w1, w2, (JS.sort byIdDesc (idb w1)).
  repeat split; try assumption.
  - apply (proj1 (sortBy_In (JS.sortCompareLe byIdDesc) e (idb w1))).
    cbn. apply idbPut_In.
  - apply sortBy_Permutation.
  - intros Hids. apply sort_sortedByIdDesc.
    eapply Forall_impl; [|exact Hids]. intros m. apply timestampId_numeric.
Qed.

Lemma save_then_load_offline_witness :
  exists w1 w2,
    saveMemory (entry "9") worldOffline = (Returns tt, w1)
    /\ getMemories linkDown w1 = (Returns [entry "10"; entry "9"], w2)
    /\ In (entry "9") [entry "10"; entry "9"]
    /\ sortedByIdDesc [entry "10"; entry "9"].
Proof.
  destruct (save_then_load_offline linkDown (entry "9") worldOffline)
    as (w1 & w2 & memories & Hsave & Hidb & Hload & Hmem & Hin & _ & Hsorted).
  - right; left. discriminate.
  - rewrite Hidb in Hmem, Hsorted.
    change (idbPut (entry "9") (idb worldOffline))
      with [entry "10"; entry "9"] in Hmem, Hsorted.
    change (JS.sort byIdDesc [entry "10"; entry "9"])
      with [entry "10"; entry "9"] in Hmem.
    subst memories.
    exists w1, w2. repeat split; try assumption.
    apply Hsorted. repeat constructor.
    + exists 10. split; [reflexivity | unfold JS.maxTime; lia].
    + exists 9. split; [reflexivity | unfold JS.maxTime; lia].
Defined.

(** The order [getMemories] falls back to is the one of the numbers the
    ids denote and not the one of the ids as strings: "9" is the larger
    string and the smaller number. *)
Example sort_is_numeric_not_lexicographic :
  JS.sort byIdDesc [entry "9"; entry "10"] = [entry "10"; entry "9"]
  /\ String.ltb "10" "9" = true.
Proof. split; reflexivity. Qed.

(** C7. [syncLocalToCloud] always returns, whatever the local store holds
    and whatever happens to each request: it returns the number of pushes
    the remote store applied and the number of those it did not, and
    leaves the local store as it was. *)
Theorem syncLocalToCloud_never_raises (link : nat -> Link) (w : World) :
  exists w',
    syncLocalToCloud link w
      = (Returns (pushesServed link w,
                  (List.length (idb w) - pushesServed link w)%nat), w')
    /\ idb w' = idb w.
Proof.
  unfold syncLocalToCloud, bind, dbGetAll, pushesServed.
  destruct (syncLoop_spec link (idb w) 0%nat 0%nat w) as (w' & Hrun & Hidb & _).
  cbv zeta in Hrun. exists w'. split; [|exact Hidb].
  rewrite Hrun. reflexivity.
Qed.

(** C10. The two counters [syncLocalToCloud] returns add up to the number
    of entries in the local store. *)
Theorem syncLocalToCloud_counts_total (link : nat -> Link) (w : World) :
  match fst (syncLocalToCloud link w) with
  | Returns (synced, failed) => (synced + failed)%nat = List.length (idb w)
  | Throws _ => False
  end.
Proof.
  unfold syncLocalToCloud, bind, dbGetAll.
  destruct (syncLoop_spec link (idb w) 0%nat 0%nat w) as (w' & Hrun & _).
  cbv zeta in Hrun. rewrite Hrun. cbn -[Nat.sub].
  destruct (isEmptyString (supabaseAnonKey w)); [lia|].
  pose proof (servedFrom_le link (requests w) (List.length (idb w))). lia.
Qed.

(** C9. [deleteMemory key] removes the entry stored under [key] from the
    local store and touches nothing of the remote store; an entry deleted
    this way whose row is still in the remote table comes back from the
    next [getMemories] that the remote store answers. *)
Theorem deleteMemory_local_only
    (link : nat -> Link) (key : string) (w : World) :
  exists w',
    deleteMemory key w = (Returns tt, w')
    /\ (forall m, In m (idb w') <-> In m (idb w) /\ id m <> key)
    /\ cloudTable w' = cloudTable w
    /\ requests w' = requests w
    /\ forall e row,
         In e (idb w) -> id e = key ->
         In row (cloudTable w) -> fromCloudRow row = e ->
         isEmptyString (supabaseAnonKey w) = false ->
         link (requests w) = Served ->
         ~ In e (idb w')
         /\ exists memories w'',
              getMemories link w' = (Returns memories, w'') /\ In e memories.
Proof.
  exists (setIdb (idbDelete key (idb w)) w).
  split; [reflexivity|]. split; [intros m; apply idbDelete_In|].
  split; [reflexivity|]. split; [reflexivity|].
  intros e row He Hkey Hrow Hshape Hconf Hlink. split.
  - cbn. rewrite idbDelete_In. tauto.
  - set (w' := setIdb (idbDelete key (idb w)) w).
    assert (Hcloud : getMemoriesFromCloud link w'
                     = (Returns (orderByIdDesc (cloudTable w)),
                        setRequests (S (requests w)) w')).
    { rewrite getMemoriesFromCloud_spec. cbn. rewrite Hconf, Hlink. reflexivity. }
    assert (Hin : In row (orderByIdDesc (cloudTable w))).
    { unfold orderByIdDesc. now apply (proj1 (sortBy_In _ row (cloudTable w))). }
    exists (map fromCloudRow (orderByIdDesc (cloudTable w))),
      (setRequests (S (requests w)) w').
    split.
    + rewrite (getMemories_cases link w' _ _ Hcloud).
      destruct (orderByIdDesc (cloudTable w)); [contradiction|reflexivity].
    + rewrite <- Hshape. now apply in_map.
Qed.

Lemma deleteMemory_local_only_witness :
  exists w',
    deleteMemory "1743249600000" worldPartialRemote = (Returns tt, w')
    /\ ~ In (entry "1743249600000") (idb w')
    /\ cloudTable w' = cloudTable worldPartialRemote
    /\ exists memories w'',
         getMemories linkUp w' = (Returns memories, w'')
         /\ In (entry "1743249600000") memories.
Proof.
  destruct (deleteMemory_local_only linkUp "1743249600000" worldPartialRemote)
    as (w' & Hrun & _ & Htable & _ & Hback).
  exists w'. split; [exact Hrun|].
  destruct (Hback (entry "1743249600000") (toCloudRow (entry "1743249600000")))
    as [Hgone Hload].
  - left; reflexivity.
  - reflexivity.
  - left; reflexivity.
  - reflexivity.
  - reflexivity.
  - reflexivity.
  - split; [exact Hgone|]. split; [exact Htable | exact Hload].
Defined.

(* ------------------------------------------------------------------ *)
(** ** CSV export                                                      *)
(* ------------------------------------------------------------------ *)

Lemma dropLast_snoc (s : string) (c : ascii) :
  dropLast (s ++ String c EmptyString) = Some (s, c).
Proof.
  induction s as [|a s IH]; [reflexivity|].
  cbn [append dropLast]. rewrite IH.
  destruct s; reflexivity.
Qed.

Lemma quotesPaired_replaceQuotes (s : string) :
  quotesPaired (replaceQuotes s) false = true.
Proof.
  induction s as [|c s IH]; [reflexivity|].
  cbn [replaceQuotes]. destruct (Ascii.eqb c dquote) eqn:Hc.
  - cbn. exact IH.
  - cbn [quotesPaired]. rewrite Hc. exact IH.
Qed.

(** A field built by doubling the quotes of a value and wrapping the
    result is well quoted. *)
Lemma wellQuoted_escaped (s : string) :
  wellQuoted (quoted (replaceQuotes s)) = true.
Proof.
  unfold quoted, wellQuoted. rewrite dropLast_snoc.
  rewrite quotesPaired_replaceQuotes. reflexivity.
Qed.

Lemma substring_prefix (n : nat) (s : string) :
  String.prefix (substring 0 n s) s = true
  /\ (String.length (substring 0 n s) <= n)%nat
  /\ ((n <= String.length s)%nat -> String.length (substring 0 n s) = n).
Proof.
  revert s. induction n as [|n IH]; intros s.
  - destruct s; cbn; repeat split; lia.
  - destruct s as [|c s]; cbn.
    + repeat split; lia.
    + destruct (IH s) as (Hp & Hl & He).
      destruct (ascii_dec c c) as [_|Hne]; [|contradiction].
      repeat split; [assumption | lia | intros; rewrite He; lia].
Qed.

(** C8, as the code has it. Whenever [exportMemoriesToCSV] produces a
    file, it is the unquoted header line Date,Mood,Summary,Image URL
    followed by one line per memory that [getMemories] returned; a line
    joins four fields with commas, each field between two double quotes;
    the mood and the summary have their double quotes doubled, the date
    and the image address are written as they are; the image field holds
    the first 100 characters of the address followed by three dots. *)
Theorem exportMemoriesToCSV_rows
    (link : nat -> Link) (w w' : World) (csv : string) :
  exportMemoriesToCSV link w = (Returns (Some csv), w') ->
  exists memories,
    getMemories link w = (Returns memories, w')
    /\ memories <> []
    /\ csv = String.concat newline ("Date,Mood,Summary,Image URL" :: map csvRow memories)
    /\ forall m, In m memories ->
         csvRow m = String.concat "," (csvFields m)
         /\ (exists d mo su im,
               csvFields m = [quoted d; quoted mo; quoted su; quoted (im ++ "...")]
               /\ d = date m
               /\ mo = replaceQuotes (mood m)
               /\ su = replaceQuotes (summary m)
               /\ String.prefix im (imageUrl m) = true
               /\ (String.length im <= 100)%nat
               /\ ((100 <= String.length (imageUrl m))%nat -> String.length im = 100%nat))
         /\ wellQuoted (nth 1 (csvFields m) "") = true
         /\ wellQuoted (nth 2 (csvFields m) "") = true.
Proof.
  unfold exportMemoriesToCSV, bind. intros Hrun.
  destruct (getMemories link w) as [[memories|e] w1] eqn:Hload; [|discriminate].
  exists memories.
  destruct memories as [|m0 memories]; [discriminate|].
  cbn in Hrun. injection Hrun as Hcsv Hw. subst w1.
  split; [reflexivity|]. split; [discriminate|]. split; [now rewrite <- Hcsv|].
  intros m _. split; [reflexivity|]. split; [|split; apply wellQuoted_escaped].
  destruct (substring_prefix 100 (imageUrl m)) as (Hp & Hl & He).
  exists (date m), (replaceQuotes (mood m)), (replaceQuotes (summary m)),
    (substring 0 100 (imageUrl m)).
  repeat split; assumption.
Qed.

Lemma exportMemoriesToCSV_rows_witness :
  exists csv w',
    exportMemoriesToCSV linkUp worldPartialRemote = (Returns (Some csv), w')
    /\ exists memories,
         getMemories linkUp worldPartialRemote = (Returns memories, w')
         /\ csv = String.concat newline
                    ("Date,Mood,Summary,Image URL" :: map csvRow memories).
Proof.
  eexists. eexists. split; [reflexivity|].
  destruct (exportMemoriesToCSV_rows linkUp worldPartialRemote _ _ eq_refl)
    as (memories & Hload & _ & Hcsv & _).
  exists memories. split; assumption.
Defined.

(** C8 fails as stated: not every field has its double quotes doubled.
    For [entryWithQuotes] the date field and the image field hold a lone
    double quote between the wrapping ones. *)
Lemma csv_fields_not_all_escaped :
  exportMemoriesToCSV linkUp worldQuotes
    = (Returns (Some (String.concat newline
                        ["Date,Mood,Summary,Image URL"; csvRow entryWithQuotes])),
       setRequests 1 worldQuotes)
  /\ wellQuoted (nth 0 (csvFields entryWithQuotes) "") = false
  /\ wellQuoted (nth 3 (csvFields entryWithQuotes) "") = false
  /\ ~ Forall (fun field => wellQuoted field = true) (csvFields entryWithQuotes).
Proof.
  split; [reflexivity|]. split; [reflexivity|]. split; [reflexivity|].
  intros Hall. inversion Hall as [|? ? Hdate _]. discriminate Hdate.
Qed.

(* ------------------------------------------------------------------ *)
(** ** Streak calculator                                               *)
(* ------------------------------------------------------------------ *)

Section StreakFacts.

Variable LocalTZA : Z -> bool -> Z.

Lemma streakLoop_on_dayStarts (rest : list Memory) :
  forall (prev : Memory) (k : Z),
    streakLoop LocalTZA prev rest k = walkDays (dayStart LocalTZA prev) (map (dayStart LocalTZA) rest) k.
Proof.
  induction rest as [|curr rest IH]; intros prev k; [reflexivity|].
  cbn [streakLoop map walkDays]. fold (dayStart LocalTZA prev) (dayStart LocalTZA curr).
  rewrite !IH. reflexivity.
Qed.

Lemma calculateStreak_on_dayStarts (now : Z) (memories : list Memory) :
  calculateStreak LocalTZA now memories
  = streakDays (midnightOf LocalTZA (Some now)) (map (dayStart LocalTZA) memories).
Proof.
  destruct memories as [|latest rest]; [reflexivity|].
  unfold calculateStreak. cbn [map streakDays].
  fold (dayStart LocalTZA latest). rewrite !streakLoop_on_dayStarts. reflexivity.
Qed.

(** The local midnight of an entry is a function of its calendar day. *)
Lemma dayStart_of_calendarDay (m : Memory) :
  dayStart LocalTZA m = match calendarDay LocalTZA m with
               | Some d => JS.TimeClip (JS.UTC LocalTZA (d * JS.msPerDay))
               | None => JS.NaN
               end.
Proof.
  unfold dayStart, midnightOf, calendarDay.
  destruct (JS.newDate (JS.Number (id m))); reflexivity.
Qed.

Lemma walkDays_NaN (rest : list JS.num) (k : Z) : walkDays JS.NaN rest k = k.
Proof. destruct rest; reflexivity. Qed.

Lemma strictEq_refl_diff (d : JS.num) :
  JS.strictEq (JS.sub d d) (Some oneDay) = false.
Proof.
  destruct d as [x|]; [|reflexivity]. cbn. rewrite Z.sub_diag. reflexivity.
Qed.

(** A second entry on the day of its neighbour leaves the walk where it
    was. *)
Lemma walkDays_repeat (d : JS.num) (rest : list JS.num) (k : Z) :
  walkDays d (d :: rest) k = walkDays d rest k.
Proof.
  cbn [walkDays]. rewrite strictEq_refl_diff.
  destruct d as [x|]; cbn.
  - rewrite Z.sub_diag. reflexivity.
  - now rewrite walkDays_NaN.
Qed.

Lemma walkDays_duplicate (front : list JS.num) :
  forall (prev d : JS.num) (back : list JS.num) (k : Z),
    walkDays prev (front ++ d :: d :: back) k = walkDays prev (front ++ d :: back) k.
Proof.
  induction front as [|a front IH]; intros prev d back k.
  - cbn [app walkDays].
    destruct (JS.strictEq (JS.sub prev d) (Some oneDay));
      [apply walkDays_repeat|].
    destruct (JS.strictEq (JS.sub prev d) (Some 0));
      [apply walkDays_repeat | reflexivity].
  - cbn [app walkDays]. rewrite !IH. reflexivity.
Qed.

Lemma streakDays_duplicate (today : JS.num) (front : list JS.num)
      (d : JS.num) (back : list JS.num) :
  streakDays today (front ++ d :: d :: back) = streakDays today (front ++ d :: back).
Proof.
  destruct front as [|a front]; cbn [app streakDays].
  - rewrite !walkDays_repeat. reflexivity.
  - rewrite !walkDays_duplicate. reflexivity.
Qed.


(** *** Facts on time values *)

Lemma TimeClip_in_range (t : Z) :
  Z.abs t <= JS.maxTime -> JS.TimeClip t = Some t.
Proof.
  intros Ht. unfold JS.TimeClip.
  destruct (Z.leb_spec (Z.abs t) JS.maxTime); [reflexivity | lia].
Qed.

Lemma TimeClip_Some (t u : Z) :
  JS.TimeClip t = Some u -> u = t /\ Z.abs t <= JS.maxTime.
Proof.
  unfold JS.TimeClip.
  destruct (Z.leb_spec (Z.abs t) JS.maxTime); [|discriminate].
  intros [= <-]. split; [reflexivity | assumption].
Qed.

Lemma calendarDay_Some (m : Memory) (d : Z) :
  calendarDay LocalTZA m = Some d ->
  exists ts, JS.Number (id m) = Some ts
             /\ Z.abs ts <= JS.maxTime
             /\ d = JS.localDay LocalTZA ts.
Proof.
  unfold calendarDay, JS.newDate.
  destruct (JS.Number (id m)) as [ts|]; [|discriminate].
  destruct (JS.TimeClip ts) as [u|] eqn:Hclip; [|discriminate].
  apply TimeClip_Some in Hclip. destruct Hclip as [-> Hrange].
  intros [= <-]. now exists ts.
Qed.

Lemma calendarDay_of_number (m : Memory) (ts : Z) :
  JS.Number (id m) = Some ts -> Z.abs ts <= JS.maxTime ->
  calendarDay LocalTZA m = Some (JS.localDay LocalTZA ts).
Proof.
  intros Hn Hrange. unfold calendarDay, JS.newDate.
  rewrite Hn, (TimeClip_in_range ts Hrange). reflexivity.
Qed.

Lemma midnightOf_now (now : Z) :
  midnightOf LocalTZA (Some now)
  = match JS.TimeClip now with
    | Some _ => JS.TimeClip (JS.UTC LocalTZA (JS.localDay LocalTZA now * JS.msPerDay))
    | None => JS.NaN
    end.
Proof.
  unfold midnightOf, JS.newDate. destruct (JS.TimeClip now) as [u|] eqn:Hclip;
    [|reflexivity].
  apply TimeClip_Some in Hclip. destruct Hclip as [-> _]. reflexivity.
Qed.


(** *** Entries sorted by id *)

Lemma sorted_app_inv (l1 l2 : list Memory) :
  sortedByIdDesc (l1 ++ l2) ->
  sortedByIdDesc l1 /\ sortedByIdDesc l2
  /\ forall a b, In a l1 -> In b l2 -> idGe a b.
Proof.
  unfold sortedByIdDesc. induction l1 as [|x l1 IH]; cbn [app]; intros Hs.
  - repeat split; [constructor | assumption | intros a b []].
  - inversion Hs as [|? ? Hs' Hx]; subst.
    destruct (IH Hs') as (H1 & H2 & H12).
    rewrite Forall_forall in Hx.
    repeat split; [|assumption|].
    + constructor; [assumption|]. apply Forall_forall. intros z Hz.
      apply Hx, in_or_app. now left.
    + intros a b [<-|Ha] Hb; [|now apply H12].
      apply Hx, in_or_app. now right.
Qed.

(** In a zone whose calendar never steps back, an id between two ids of
    one calendar day falls on that day too. *)
Lemma calendarDay_between (a b c : Memory) :
  zoneDayMonotone LocalTZA ->
  idGe a b -> idGe b c ->
  calendarDay LocalTZA a = calendarDay LocalTZA c ->
  calendarDay LocalTZA a <> None ->
  calendarDay LocalTZA b = calendarDay LocalTZA a.
Proof.
  intros Hmono (x & y & Hx & Hy & Hyx) (y' & z & Hy' & Hz & Hzy) Hsame Hday.
  rewrite Hy in Hy'. injection Hy' as <-.
  destruct (calendarDay LocalTZA a) as [d|] eqn:Ha; [clear Hday|contradiction].
  symmetry in Hsame.
  apply calendarDay_Some in Ha, Hsame.
  destruct Ha as (x' & Hx' & Hxr & ->), Hsame as (z' & Hz' & Hzr & Hdz).
  rewrite Hx in Hx'. injection Hx' as <-.
  rewrite Hz in Hz'. injection Hz' as <-.
  rewrite (calendarDay_of_number b y Hy) by lia.
  f_equal. pose proof (Hmono z y Hzy). pose proof (Hmono y x Hyx). lia.
Qed.

Lemma dayStart_same_day (a b : Memory) :
  calendarDay LocalTZA a = calendarDay LocalTZA b ->
  dayStart LocalTZA a = dayStart LocalTZA b.
Proof. intros H. now rewrite !dayStart_of_calendarDay, H. Qed.

(** X28. In every zone whose local calendar day never steps back as time
    passes: in a list sorted by id, newest first, an entry [x] that falls
    on the calendar day of an entry [y] of the list can be put at any
    place that keeps the list sorted, and [calculateStreak] returns what
    it returned without [x]. *)
Theorem same_day_insert_keeps_streak
    (now : Z) (front back : list Memory) (x y : Memory) :
  zoneDayMonotone LocalTZA ->
  sortedByIdDesc (front ++ x :: back) ->
  In y (front ++ back) ->
  calendarDay LocalTZA x = calendarDay LocalTZA y ->
  calendarDay LocalTZA x <> None ->
  calculateStreak LocalTZA now (front ++ x :: back)
  = calculateStreak LocalTZA now (front ++ back).
Proof.
  intros Hmono Hsorted Hy Hsame Hday.
  rewrite !calculateStreak_on_dayStarts.
  apply in_app_or in Hy. destruct Hy as [Hy|Hy].
  - (* [y] is in front of [x]: the entry just before [x] is on [x]'s day *)
    destruct (exists_last (l := front)) as (front' & z & ->);
      [intros ->; contradiction|].
    assert (Hz : calendarDay LocalTZA z = calendarDay LocalTZA x).
    { destruct (sorted_app_inv _ _ Hsorted) as (Hfront & _ & Hcross).
      destruct (sorted_app_inv _ _ Hfront) as (_ & _ & Hbefore).
      assert (Hzx : idGe z x).
      { apply Hcross; [apply in_or_app; right|]; now left. }
      apply in_app_or in Hy. destruct Hy as [Hy|[<-|[]]]; [|now symmetry].
      rewrite Hsame.
      apply calendarDay_between with (c := x);
        [assumption | apply Hbefore; [assumption | now left] | assumption
        | now symmetry | now rewrite <- Hsame]. }
    rewrite <- !app_assoc, !map_app. cbn [app map].
    rewrite <- (dayStart_same_day z x Hz). apply streakDays_duplicate.
  - (* [y] is behind [x]: the entry just after [x] is on [x]'s day *)
    destruct back as [|z back]; [contradiction|].
    assert (Hz : calendarDay LocalTZA z = calendarDay LocalTZA x).
    { destruct (sorted_app_inv _ _ Hsorted) as (_ & Hback & _).
      unfold sortedByIdDesc in Hback.
      inversion Hback as [|? ? Hback' Hx]; subst.
      inversion Hback' as [|? ? _ Hzs]; subst.
      inversion Hx as [|? ? Hxz _]; subst.
      destruct Hy as [<-|Hy]; [now symmetry|].
      rewrite Forall_forall in Hzs.
      apply calendarDay_between with (c := y); auto. }
    rewrite !map_app. cbn [map].
    rewrite (dayStart_same_day z x Hz). apply streakDays_duplicate.
Qed.

(** *** Zones that keep one offset *)

Section FixedOffset.

Variable offset : Z.
Hypothesis Hzone : zoneFixedOffset LocalTZA offset.

(** The local midnight of a day lies within the day before the instant
    it is computed from, so it is a valid time value when the instant is
    a timestamp. *)
Lemma dayStart_fixed (m : Memory) (d : Z) :
  (exists ts, JS.Number (id m) = Some ts /\ 0 <= ts <= JS.maxTime) ->
  calendarDay LocalTZA m = Some d ->
  dayStart LocalTZA m = Some (d * JS.msPerDay - offset).
Proof.
  intros (ts & Hts & Hrange) Hd.
  rewrite dayStart_of_calendarDay, Hd.
  apply calendarDay_Some in Hd. destruct Hd as (ts' & Hts' & _ & ->).
  rewrite Hts in Hts'. injection Hts' as <-.
  unfold JS.UTC, JS.localDay, JS.LocalTime, JS.Day. rewrite !Hzone.
  apply TimeClip_in_range.
  pose proof (Z.mul_div_le (ts + offset) JS.msPerDay eq_refl) as Hlo.
  pose proof (Z.mul_succ_div_gt (ts + offset) JS.msPerDay eq_refl) as Hhi.
  unfold JS.msPerDay, JS.maxTime in *. lia.
Qed.

Lemma today_fixed (now : Z) :
  0 <= now <= JS.maxTime ->
  midnightOf LocalTZA (Some now)
  = Some (JS.localDay LocalTZA now * JS.msPerDay - offset).
Proof.
  intros Hrange. rewrite midnightOf_now, TimeClip_in_range by lia.
  unfold JS.UTC, JS.localDay, JS.LocalTime, JS.Day. rewrite !Hzone.
  apply TimeClip_in_range.
  pose proof (Z.mul_div_le (now + offset) JS.msPerDay eq_refl) as Hlo.
  pose proof (Z.mul_succ_div_gt (now + offset) JS.msPerDay eq_refl) as Hhi.
  unfold JS.msPerDay, JS.maxTime in *. lia.
Qed.

(** One step of the walk between the midnights of two days. *)
Lemma walkDays_step (d e : Z) (rest : list JS.num) (k : Z) :
  walkDays (Some (d * JS.msPerDay - offset))
           (Some (e * JS.msPerDay - offset) :: rest) k
  = if (e =? d - 1)%Z then walkDays (Some (e * JS.msPerDay - offset)) rest (k + 1)
    else if (e =? d)%Z then walkDays (Some (e * JS.msPerDay - offset)) rest k
    else k.
Proof.
  cbn [walkDays JS.sub JS.strictEq]. unfold JS.msPerDay, oneDay.
  destruct (Z.eqb_spec e (d - 1)), (Z.eqb_spec e d);
    repeat match goal with
           | |- context [(?a =? ?b)%Z] => destruct (Z.eqb_spec a b); try lia
           end; reflexivity.
Qed.

Lemma walkDays_consecutive (l : list Memory) :
  forall (d k : Z),
    onConsecutiveDays LocalTZA (d - 1) l ->
    walkDays (Some (d * JS.msPerDay - offset)) (map (dayStart LocalTZA) l) k
    = k + Z.of_nat (List.length l).
Proof.
  induction l as [|m l IH]; intros d k Hdays; cbn [map List.length].
  - cbn. lia.
  - destruct Hdays as (Hts & Hd & Hrest).
    rewrite (dayStart_fixed m (d - 1) Hts Hd), walkDays_step, Z.eqb_refl.
    rewrite (IH (d - 1) (k + 1) Hrest). lia.
Qed.

(** The first property of the streak, in a zone that keeps one offset:
    entries on consecutive days down from today give a streak as long as
    the list. *)
Lemma streak_of_consecutive_days (now : Z) (l : list Memory) :
  0 <= now <= JS.maxTime ->
  onConsecutiveDays LocalTZA (JS.localDay LocalTZA now) l ->
  calculateStreak LocalTZA now l = Z.of_nat (List.length l).
Proof.
  intros Hnow Hdays. rewrite calculateStreak_on_dayStarts.
  destruct l as [|m l]; [reflexivity|].
  destruct Hdays as (Hts & Hd & Hrest).
  cbn [map streakDays List.length].
  rewrite (dayStart_fixed m _ Hts Hd), (today_fixed now Hnow).
  cbn [JS.strictEq]. rewrite Z.eqb_refl.
  rewrite (walkDays_consecutive l _ 1 Hrest). lia.
Qed.

Lemma walkDays_run (d last : Z) (run : list Memory) :
  dayRun LocalTZA d run last ->
  forall (tail : list JS.num) (k : Z),
    walkDays (Some (d * JS.msPerDay - offset))
             (map (dayStart LocalTZA) run ++ tail) k
    = walkDays (Some (last * JS.msPerDay - offset)) tail (k + (d - last)).
Proof.
  induction 1 as [d | d m l last Hts Hd _ IH | d m l last Hts Hd _ IH];
    intros tail k; cbn [map app].
  - f_equal. lia.
  - rewrite (dayStart_fixed m d Hts Hd), walkDays_step, Z.eqb_refl.
    destruct (Z.eqb_spec d (d - 1)); [lia|]. apply IH.
  - rewrite (dayStart_fixed m (d - 1) Hts Hd), walkDays_step, Z.eqb_refl.
    rewrite IH. f_equal. lia.
Qed.

(** The walk stops at a gap, in a zone that keeps one offset: with the
    newest entry on today, a run of entries each on the day of the one
    before or on the day before it, and then an entry two days or more
    before the last of the run, the streak is the number of days from
    the last day of the run to today. *)
Lemma streak_before_gap
    (now : Z) (first gap : Memory) (run rest : list Memory) (last dg : Z) :
  0 <= now <= JS.maxTime ->
  (exists ts, JS.Number (id first) = Some ts /\ 0 <= ts <= JS.maxTime) ->
  calendarDay LocalTZA first = Some (JS.localDay LocalTZA now) ->
  dayRun LocalTZA (JS.localDay LocalTZA now) run last ->
  (exists ts, JS.Number (id gap) = Some ts /\ 0 <= ts <= JS.maxTime) ->
  calendarDay LocalTZA gap = Some dg ->
  dg <= last - 2 ->
  calculateStreak LocalTZA now (first :: run ++ gap :: rest)
  = JS.localDay LocalTZA now - last + 1.
Proof.
  intros Hnow Hfirst Hday Hrun Hgap Hdg Hfar.
  rewrite calculateStreak_on_dayStarts. cbn [map streakDays].
  rewrite (dayStart_fixed first _ Hfirst Hday), (today_fixed now Hnow).
  cbn [JS.strictEq]. rewrite Z.eqb_refl.
  rewrite map_app. cbn [map].
  rewrite (walkDays_run _ _ _ Hrun), (dayStart_fixed gap dg Hgap Hdg), walkDays_step.
  destruct (Z.eqb_spec dg (last - 1)); [lia|].
  destruct (Z.eqb_spec dg last); lia.
Qed.

End FixedOffset.

End StreakFacts.

(** *** The sample zones *)

Lemma zoneUTC_fixed : zoneFixedOffset zoneUTC 0.
Proof. intros t isUTC. reflexivity. Qed.

Lemma zoneUTC_dayMonotone : zoneDayMonotone zoneUTC.
Proof.
  intros t t' Hle. unfold JS.localDay, JS.Day, JS.LocalTime, zoneUTC.
  apply Z.div_le_mono; [reflexivity | lia].
Qed.

Lemma zoneLondon_span : zoneSpanUnderDay zoneLondon.
Proof.
  intros t t' b b'. unfold zoneLondon, londonSpringForward, JS.msPerDay.
  destruct b, b';
    repeat match goal with
           | |- context [(?a <? ?c)%Z] => destruct (Z.ltb_spec a c)
           end; lia.
Qed.

Lemma zoneLondon_dayMonotone : zoneDayMonotone zoneLondon.
Proof.
  intros t t' Hle. unfold JS.localDay, JS.Day, JS.LocalTime, zoneLondon.
  apply Z.div_le_mono; [reflexivity|].
  destruct (Z.ltb_spec t londonSpringForward),
           (Z.ltb_spec t' londonSpringForward); lia.
Qed.


Lemma same_day_insert_keeps_streak_witness :
  calculateStreak zoneUTC londonNow [mar31; mar30; mar30early; mar29]
  = calculateStreak zoneUTC londonNow [mar31; mar30; mar29]
  /\ calculateStreak zoneUTC londonNow [mar31; mar30; mar29] = 3.
Proof.
  split; [|reflexivity].
  apply (same_day_insert_keeps_streak zoneUTC londonNow [mar31; mar30] [mar29]
                                      mar30early mar30).
  - exact zoneUTC_dayMonotone.
  - literal_sorted.
  - right; left; reflexivity.
  - reflexivity.
  - discriminate.
Defined.

(** C1 on a host in London on 2025-03-31.  The three entries fall on
    2025-03-31, 2025-03-30 and 2025-03-29, consecutive calendar days down
    from today, and [calculateStreak] returns 1, not 3: the clocks went
    forward on 2025-03-30, the midnights of 03-31 and 03-30 are 23 hours
    apart, and the loop takes any difference other than 24 hours for a
    gap. *)
Theorem streak_breaks_at_clock_change :
  onConsecutiveDays zoneLondon (JS.localDay zoneLondon londonNow) [mar31; mar30; mar29]
  /\ JS.sub (dayStart zoneLondon mar31) (dayStart zoneLondon mar30)
     = Some (23 * 60 * 60 * 1000)
  /\ calculateStreak zoneLondon londonNow [mar31; mar30; mar29] = 1
  /\ Z.of_nat (List.length [mar31; mar30; mar29]) = 3.
Proof.
  split; [|repeat split].
  cbn [onConsecutiveDays].
  repeat split; try reflexivity; literal_timestamp.
Qed.

(** The same entries at the same instant on a host that keeps UTC: the
    streak is the length of the list. *)
Example streak_of_consecutive_days_utc :
  calculateStreak zoneUTC londonNow [mar31; mar30; mar29] = 3.
Proof.
  apply (streak_of_consecutive_days zoneUTC 0 zoneUTC_fixed londonNow
                                    [mar31; mar30; mar29]).
  - unfold londonNow, JS.maxTime. lia.
  - cbn [onConsecutiveDays]. repeat split; try reflexivity; literal_timestamp.
Qed.

(** C4 on a host in London on 2025-03-31.  The entries fall on days D,
    D-1, D-1 and D-3 with D today and are sorted by id, newest first;
    [calculateStreak] returns 1, not 2: the midnights of 03-31 and 03-30
    are 23 hours apart and the loop stops at the first step. *)
Theorem streak_before_gap_breaks_at_clock_change :
  JS.localDay zoneLondon londonNow = 20178
  /\ map (calendarDay zoneLondon) [mar31; mar30; mar30early; mar28]
     = [Some 20178; Some 20177; Some 20177; Some 20175]
  /\ sortedByIdDesc [mar31; mar30; mar30early; mar28]
  /\ calculateStreak zoneLondon londonNow [mar31; mar30; mar30early; mar28] = 1.
Proof.
  split; [reflexivity|]. split; [reflexivity|]. split; [|reflexivity].
  literal_sorted.
Qed.

(** The same entries at the same instant on a host that keeps UTC: two
    days are counted before the gap. *)
Example streak_before_gap_utc :
  calculateStreak zoneUTC londonNow [mar31; mar30; mar30early; mar28] = 2.
Proof.
  change [mar31; mar30; mar30early; mar28]
    with (mar31 :: [mar30; mar30early] ++ mar28 :: []).
  rewrite (streak_before_gap zoneUTC 0 zoneUTC_fixed londonNow mar31 mar28
                             [mar30; mar30early] [] 20177 20175).
  - reflexivity.
  - unfold londonNow, JS.maxTime. lia.
  - literal_timestamp.
  - reflexivity.
  - apply run_prev; [literal_timestamp | reflexivity |].
    apply run_same; [literal_timestamp | reflexivity |].
    apply run_end.
  - literal_timestamp.
  - reflexivity.
  - lia.
Qed.

(* ------------------------------------------------------------------ *)
(** ** Streak calculator: bounds, gaps and hosts at a fixed offset     *)
(* ------------------------------------------------------------------ *)

Section StreakBounds.

Variable LocalTZA : Z -> bool -> Z.

Lemma walkDays_bounds (rest : list JS.num) :
  forall (prev : JS.num) (k : Z),
    k <= walkDays prev rest k <= k + Z.of_nat (List.length rest).
Proof.
  induction rest as [|curr rest IH]; intros prev k; cbn [walkDays List.length].
  - lia.
  - destruct (JS.strictEq (JS.sub prev curr) (Some oneDay)).
    + specialize (IH curr (k + 1)). lia.
    + destruct (JS.strictEq (JS.sub prev curr) (Some 0)).
      * specialize (IH curr k). lia.
      * lia.
Qed.

Lemma streakDays_bounds (today : JS.num) (days : list JS.num) :
  0 <= streakDays today days <= Z.of_nat (List.length days).
Proof.
  destruct days as [|latest rest]; cbn [streakDays List.length]; [lia|].
  pose proof (walkDays_bounds rest latest 1) as Hw.
  destruct (JS.strictEq _ _); [lia|]. destruct (JS.strictEq _ _); lia.
Qed.

(** X1. Whatever the entries, the clock and the host zone, the streak is
    at least 0 and at most the number of entries. *)
Theorem calculateStreak_bounds (now : Z) (memories : list Memory) :
  0 <= calculateStreak LocalTZA now memories <= Z.of_nat (List.length memories).
Proof.
  rewrite calculateStreak_on_dayStarts.
  pose proof (streakDays_bounds (midnightOf LocalTZA (Some now))
                                (map (dayStart LocalTZA) memories)) as Hb.
  now rewrite length_map in Hb.
Qed.

Lemma walkDays_app_le (front : list JS.num) :
  forall (prev : JS.num) (back : list JS.num) (k : Z),
    walkDays prev front k <= walkDays prev (front ++ back) k.
Proof.
  induction front as [|curr front IH]; intros prev back k; cbn [app].
  - cbn [walkDays]. apply walkDays_bounds.
  - cbn [walkDays].
    destruct (JS.strictEq (JS.sub prev curr) (Some oneDay)); [apply IH|].
    destruct (JS.strictEq (JS.sub prev curr) (Some 0)); [apply IH | lia].
Qed.

(** X2. Entries added behind a list never lower its streak. *)
Theorem calculateStreak_older_entries_never_lower
    (now : Z) (memories older : list Memory) :
  calculateStreak LocalTZA now memories
  <= calculateStreak LocalTZA now (memories ++ older).
Proof.
  destruct memories as [|latest rest].
  - cbn [app]. rewrite (calculateStreak_on_dayStarts LocalTZA now older).
    apply (streakDays_bounds (midnightOf LocalTZA (Some now))
                             (map (dayStart LocalTZA) older)).
  - rewrite !calculateStreak_on_dayStarts. cbn [app map streakDays].
    rewrite map_app.
    destruct (JS.strictEq _ _); [apply walkDays_app_le|].
    destruct (JS.strictEq _ _); [apply walkDays_app_le | lia].
Qed.

Lemma walkDays_stops (front : list JS.num) :
  forall (prev a b : JS.num) (rest : list JS.num) (k : Z),
    JS.strictEq (JS.sub a b) (Some oneDay) = false ->
    JS.strictEq (JS.sub a b) (Some 0) = false ->
    walkDays prev (front ++ a :: b :: rest) k = walkDays prev (front ++ [a]) k.
Proof.
  induction front as [|c front IH]; intros prev a b rest k H1 H0; cbn [app].
  - cbn [walkDays]. rewrite H1, H0. reflexivity.
  - cbn [walkDays]. rewrite !(IH _ a b rest _ H1 H0). reflexivity.
Qed.

(** X3. Once the step from an entry [a] to the next entry [b] breaks the
    walk, nothing from [b] on has any part in the result. *)
Theorem calculateStreak_ignores_past_break
    (now : Z) (front : list Memory) (a b : Memory) (rest : list Memory) :
  stepBreaks LocalTZA a b = true ->
  calculateStreak LocalTZA now (front ++ a :: b :: rest)
  = calculateStreak LocalTZA now (front ++ [a]).
Proof.
  unfold stepBreaks. intros Hbreak.
  apply andb_true_iff in Hbreak. destruct Hbreak as [H1 H0].
  apply negb_true_iff in H1, H0.
  rewrite !calculateStreak_on_dayStarts, !map_app. cbn [map].
  destruct front as [|latest front]; cbn [map app streakDays].
  - cbn [walkDays]. rewrite H1, H0. reflexivity.
  - rewrite !(walkDays_stops _ _ _ _ _ _ H1 H0). reflexivity.
Qed.

(** X4. An entry dated after today at the head of the list gives a streak
    of 0, in every zone whose offsets stay within a day of each other. *)
Theorem future_latest_gives_no_streak
    (now : Z) (latest : Memory) (rest : list Memory) (d : Z) :
  zoneSpanUnderDay LocalTZA ->
  calendarDay LocalTZA latest = Some d ->
  JS.localDay LocalTZA now < d ->
  calculateStreak LocalTZA now (latest :: rest) = 0.
Proof.
  intros Hspan Hd Hfuture.
  rewrite calculateStreak_on_dayStarts. cbn [map streakDays].
  rewrite dayStart_of_calendarDay, Hd, midnightOf_now.
  destruct (JS.TimeClip now) as [u|]; [|now destruct (JS.TimeClip _)].
  destruct (JS.TimeClip (JS.UTC LocalTZA (d * JS.msPerDay))) as [a|] eqn:Ha;
    [|reflexivity].
  destruct (JS.TimeClip (JS.UTC LocalTZA (JS.localDay LocalTZA now * JS.msPerDay)))
    as [b|] eqn:Hb; [|reflexivity].
  apply TimeClip_Some in Ha, Hb. destruct Ha as [-> _], Hb as [-> _].
  specialize (Hspan (JS.localDay LocalTZA now * JS.msPerDay) (d * JS.msPerDay)
                    false false).
  unfold JS.UTC, JS.msPerDay, oneDay in *. cbn [JS.strictEq JS.sub].
  set (dn := JS.localDay LocalTZA now) in *.
  destruct (Z.eqb_spec (d * 86400000 - LocalTZA (d * 86400000) false)
                       (dn * 86400000 - LocalTZA (dn * 86400000) false));
    [lia|].
  destruct (Z.eqb_spec (d * 86400000 - LocalTZA (d * 86400000) false)
                       (dn * 86400000 - LocalTZA (dn * 86400000) false
                        - 24 * 60 * 60 * 1000));
    [lia | reflexivity].
Qed.

Section AtFixedOffset.

Variable offset : Z.
Hypothesis Hzone : zoneFixedOffset LocalTZA offset.

(** The two tests on the newest entry, between the midnights of two
    days. *)
Lemma streakDays_head (d dn : Z) (rest : list JS.num) :
  streakDays (Some (dn * JS.msPerDay - offset))
             (Some (d * JS.msPerDay - offset) :: rest)
  = if ((d =? dn) || (d =? dn - 1))%Z
    then walkDays (Some (d * JS.msPerDay - offset)) rest 1
    else 0.
Proof.
  cbn [streakDays JS.strictEq JS.sub]. unfold JS.msPerDay, oneDay.
  destruct (Z.eqb_spec d dn), (Z.eqb_spec d (dn - 1));
    repeat match goal with
           | |- context [(?a =? ?b)%Z] => destruct (Z.eqb_spec a b); try lia
           end; reflexivity.
Qed.

(** X5. On a host whose zone keeps one offset: entries on consecutive
    calendar days, the newest on today or on yesterday, give a streak equal
    to their number. *)
Theorem fixed_offset_streak_counts_consecutive_days
    (now d : Z) (memories : list Memory) :
  0 <= now <= JS.maxTime ->
  d = JS.localDay LocalTZA now \/ d = JS.localDay LocalTZA now - 1 ->
  onConsecutiveDays LocalTZA d memories ->
  calculateStreak LocalTZA now memories = Z.of_nat (List.length memories).
Proof.
  intros Hnow Hd Hdays. rewrite calculateStreak_on_dayStarts.
  destruct memories as [|m l]; [reflexivity|].
  destruct Hdays as (Hts & Hday & Hrest).
  cbn [map List.length].
  rewrite (dayStart_fixed LocalTZA offset Hzone m d Hts Hday),
          (today_fixed LocalTZA offset Hzone now Hnow), streakDays_head.
  replace ((d =? JS.localDay LocalTZA now) || (d =? JS.localDay LocalTZA now - 1))%Z
    with true
    by (symmetry; apply orb_true_iff; destruct Hd as [->| ->];
        [left | right]; apply Z.eqb_refl).
  rewrite (walkDays_consecutive LocalTZA offset Hzone l d 1 Hrest). lia.
Qed.

(** X6. On a host whose zone keeps one offset: with the newest entry on
    today or on yesterday, then entries each on the day of the one before
    or on the day before it, the streak is the number of calendar days from
    the last of these to the newest, provided the list ends there or goes
    on with an entry of any other day than that last day and the day before
    it. *)
Theorem fixed_offset_streak_counts_days_to_gap
    (now d last : Z) (first : Memory) (run tail : list Memory) :
  0 <= now <= JS.maxTime ->
  d = JS.localDay LocalTZA now \/ d = JS.localDay LocalTZA now - 1 ->
  (exists ts, JS.Number (id first) = Some ts /\ 0 <= ts <= JS.maxTime) ->
  calendarDay LocalTZA first = Some d ->
  dayRun LocalTZA d run last ->
  match tail with
  | [] => True
  | gap :: _ =>
      exists ts dg, JS.Number (id gap) = Some ts /\ 0 <= ts <= JS.maxTime
                    /\ calendarDay LocalTZA gap = Some dg
                    /\ dg <> last /\ dg <> last - 1
  end ->
  calculateStreak LocalTZA now (first :: run ++ tail) = d - last + 1.
Proof.
  intros Hnow Hd Hfirst Hday Hrun Htail.
  rewrite calculateStreak_on_dayStarts. cbn [map].
  rewrite (dayStart_fixed LocalTZA offset Hzone first d Hfirst Hday),
          (today_fixed LocalTZA offset Hzone now Hnow), streakDays_head.
  replace ((d =? JS.localDay LocalTZA now) || (d =? JS.localDay LocalTZA now - 1))%Z
    with true
    by (symmetry; apply orb_true_iff; destruct Hd as [->| ->];
        [left | right]; apply Z.eqb_refl).
  rewrite map_app, (walkDays_run LocalTZA offset Hzone _ _ _ Hrun).
  destruct tail as [|gap rest]; cbn [map]; [cbn [walkDays]; lia|].
  destruct Htail as (ts & dg & Hts & Hrange & Hdg & Hne & Hne').
  rewrite (dayStart_fixed LocalTZA offset Hzone gap dg (ex_intro _ ts (conj Hts Hrange)) Hdg).
  rewrite (walkDays_step offset).
  destruct (Z.eqb_spec dg (last - 1)); [contradiction|].
  destruct (Z.eqb_spec dg last); [contradiction | lia].
Qed.

End AtFixedOffset.

End StreakBounds.

Lemma zoneRiyadh_fixed : zoneFixedOffset zoneRiyadh 10800000.
Proof. intros t isUTC. reflexivity. Qed.

Lemma calculateStreak_ignores_past_break_witness :
  calculateStreak zoneUTC londonNow [mar31; mar30; mar28; mar28]
  = calculateStreak zoneUTC londonNow [mar31; mar30]
  /\ calculateStreak zoneUTC londonNow [mar31; mar30] = 2.
Proof.
  split; [|reflexivity].
  apply (calculateStreak_ignores_past_break zoneUTC londonNow [mar31] mar30 mar28 [mar28]).
  reflexivity.
Defined.

Lemma future_latest_gives_no_streak_witness :
  JS.localDay zoneLondon 1743249600000 = 20176
  /\ calculateStreak zoneLondon 1743249600000 [mar31; mar29] = 0.
Proof.
  split; [reflexivity|].
  apply (future_latest_gives_no_streak zoneLondon 1743249600000 mar31 [mar29] 20178).
  - exact zoneLondon_span.
  - reflexivity.
  - reflexivity.
Defined.

Lemma fixed_offset_streak_counts_consecutive_days_witness :
  JS.localDay zoneRiyadh londonNow - 1 = 20177
  /\ calculateStreak zoneRiyadh londonNow [mar30; mar29; mar28] = 3.
Proof.
  split; [reflexivity|].
  apply (fixed_offset_streak_counts_consecutive_days
           zoneRiyadh 10800000 zoneRiyadh_fixed londonNow 20177 [mar30; mar29; mar28]).
  - unfold londonNow, JS.maxTime. lia.
  - right. reflexivity.
  - cbn [onConsecutiveDays]. repeat split; try reflexivity; literal_timestamp.
Defined.

Lemma fixed_offset_streak_counts_days_to_gap_witness :
  calculateStreak zoneRiyadh londonNow [mar30; mar30early; mar29; mar31] = 2.
Proof.
  apply (fixed_offset_streak_counts_days_to_gap
           zoneRiyadh 10800000 zoneRiyadh_fixed londonNow 20177 20176
           mar30 [mar30early; mar29] [mar31]).
  - unfold londonNow, JS.maxTime. lia.
  - right. reflexivity.
  - literal_timestamp.
  - reflexivity.
  - apply run_same; [literal_timestamp | reflexivity |].
    apply run_prev; [literal_timestamp | reflexivity |].
    apply run_end.
  - exists 1743418800000, 20178.
    repeat split; try reflexivity; try discriminate.
Defined.

(* ------------------------------------------------------------------ *)
(** ** Local record store                                              *)
(* ------------------------------------------------------------------ *)

Lemma ascii_compare_refl (c : ascii) : Ascii.compare c c = Eq.
Proof. apply N.compare_refl. Qed.

Lemma string_compare_refl (s : string) : String.compare s s = Eq.
Proof.
  induction s as [|c s IH]; [reflexivity|].
  cbn. now rewrite ascii_compare_refl.
Qed.

Lemma ascii_compare_lt_trans (a b c : ascii) :
  Ascii.compare a b = Lt -> Ascii.compare b c = Lt -> Ascii.compare a c = Lt.
Proof.
  unfold Ascii.compare. rewrite !N.compare_lt_iff. apply N.lt_trans.
Qed.

Lemma string_compare_lt_trans (a : string) :
  forall b c : string,
    String.compare a b = Lt -> String.compare b c = Lt -> String.compare a c = Lt.
Proof.
  induction a as [|x a IH]; intros [|y b] [|z c]; cbn; try discriminate; auto.
  destruct (Ascii.compare x y) eqn:Exy, (Ascii.compare y z) eqn:Eyz;
    try discriminate; intros Hab Hbc.
  - apply Ascii.compare_eq_iff in Exy, Eyz. subst.
    rewrite ascii_compare_refl. now apply IH with b.
  - apply Ascii.compare_eq_iff in Exy. subst. now rewrite Eyz.
  - apply Ascii.compare_eq_iff in Eyz. subst. now rewrite Exy.
  - now rewrite (ascii_compare_lt_trans x y z Exy Eyz).
Qed.

Lemma keyLt_trans (a b c : Memory) : keyLt a b -> keyLt b c -> keyLt a c.
Proof. unfold keyLt. apply string_compare_lt_trans. Qed.

Lemma keyLt_neq (a b : Memory) : keyLt a b -> id a <> id b /\ id b <> id a.
Proof.
  unfold keyLt. intros Hlt.
  split; intros Heq; rewrite Heq, string_compare_refl in Hlt; discriminate.
Qed.

Lemma idbPut_In_inv (memory : Memory) (store : list Memory) (x : Memory) :
  In x (idbPut memory store) -> x = memory \/ In x store.
Proof.
  induction store as [|y store IH]; cbn.
  - intros [<-|[]]. now left.
  - destruct (String.compare (id memory) (id y)); cbn.
    + intros [<-|H]; auto.
    + intros [<-|H]; auto.
    + intros [<-|H]; auto. destruct (IH H); auto.
Qed.

Lemma idbPut_keysAscending (memory : Memory) (store : list Memory) :
  keysAscending store -> keysAscending (idbPut memory store).
Proof.
  unfold keysAscending. intros Hs.
  induction Hs as [|y store Hs IH Hy]; cbn.
  - constructor; constructor.
  - destruct (String.compare (id memory) (id y)) eqn:Hc.
    + apply String.compare_eq_iff in Hc.
      constructor; [assumption|].
      eapply Forall_impl; [|exact Hy]. unfold keyLt. intros z. now rewrite Hc.
    + constructor; [now constructor|].
      constructor; [exact Hc|].
      eapply Forall_impl; [|exact Hy]. intros z. now apply keyLt_trans.
    + constructor; [exact IH|].
      apply Forall_forall. intros z Hz.
      apply idbPut_In_inv in Hz. destruct Hz as [->|Hz].
      * unfold keyLt. rewrite String.compare_antisym, Hc. reflexivity.
      * rewrite Forall_forall in Hy. now apply Hy.
Qed.

Lemma idbDelete_keysAscending (key : string) (store : list Memory) :
  keysAscending store -> keysAscending (idbDelete key store).
Proof.
  unfold keysAscending, idbDelete. intros Hs.
  induction Hs as [|y store Hs IH Hy]; cbn; [constructor|].
  destruct (negb (id y =? key)%string); [|exact IH].
  constructor; [exact IH|].
  apply Forall_forall. intros z Hz. apply filter_In in Hz.
  rewrite Forall_forall in Hy. now apply Hy.
Qed.

Lemma idbPut_In_iff (memory : Memory) (store : list Memory) (x : Memory) :
  keysAscending store ->
  In x (idbPut memory store) <-> x = memory \/ (In x store /\ id x <> id memory).
Proof.
  unfold keysAscending. intros Hs.
  induction Hs as [|y store Hs IH Hy]; cbn.
  - intuition.
  - rewrite Forall_forall in Hy.
    destruct (String.compare (id memory) (id y)) eqn:Hc; cbn.
    + apply String.compare_eq_iff in Hc. split.
      * intros [<-|Hx]; [now left|]. right. split; [now right|].
        rewrite Hc. apply (keyLt_neq y x). now apply Hy.
      * intros [->|[[<-|Hx] Hne]]; [now left | congruence | now right].
    + split.
      * intros [<-|Hx]; [now left|]. right. split; [exact Hx|].
        assert (Hmy : keyLt memory y) by exact Hc.
        destruct Hx as [<-|Hx]; [apply (keyLt_neq memory y Hmy)|].
        apply (keyLt_neq memory x). apply keyLt_trans with y; [exact Hmy|].
        now apply Hy.
      * intros [->|[Hx _]]; [now left | now right].
    + rewrite IH. split.
      * intros [<-|[->|[Hx Hne]]]; [|now left|right; split; [now right|exact Hne]].
        right. split; [now left|].
        intros Heq. rewrite Heq, string_compare_refl in Hc. discriminate.
      * intros [->|[[<-|Hx] Hne]]; [right; now left | now left | right; right; now split].
Qed.

Lemma idbPut_twice (memory : Memory) (store : list Memory) :
  idbPut memory (idbPut memory store) = idbPut memory store.
Proof.
  induction store as [|y store IH]; cbn.
  - now rewrite string_compare_refl.
  - destruct (String.compare (id memory) (id y)) eqn:Hc; cbn.
    + now rewrite string_compare_refl.
    + now rewrite string_compare_refl.
    + now rewrite Hc, IH.
Qed.

Lemma idbDelete_absent (key : string) (store : list Memory) :
  (forall x, In x store -> id x <> key) -> idbDelete key store = store.
Proof.
  unfold idbDelete. induction store as [|y store IH]; intros Habs; cbn; [reflexivity|].
  assert (Hy : (id y =? key)%string = false)
    by (apply String.eqb_neq, Habs; now left).
  rewrite Hy. cbn. f_equal. apply IH. intros x Hx. apply Habs. now right.
Qed.

Lemma idbDelete_cons (key : string) (y : Memory) (store : list Memory) :
  idbDelete key (y :: store)
  = if (id y =? key)%string then idbDelete key store
    else y :: idbDelete key store.
Proof. unfold idbDelete. cbn. destruct (id y =? key)%string; reflexivity. Qed.

Lemma idbDelete_idbPut (memory : Memory) (store : list Memory) :
  (forall x, In x store -> id x <> id memory) ->
  idbDelete (id memory) (idbPut memory store) = store.
Proof.
  induction store as [|y store IH]; intros Habs; cbn [idbPut].
  - now rewrite idbDelete_cons, String.eqb_refl.
  - assert (Hy : id y <> id memory) by (apply Habs; now left).
    destruct (String.compare (id memory) (id y)) eqn:Hc.
    + apply String.compare_eq_iff in Hc. congruence.
    + rewrite idbDelete_cons, String.eqb_refl. now apply idbDelete_absent.
    + rewrite idbDelete_cons. apply String.eqb_neq in Hy. rewrite Hy. f_equal.
      apply IH. intros x Hx. apply Habs. now right.
Qed.

(** X7. The local store stays in strictly ascending key order, one record
    per key, through every [saveMemory] and every [deleteMemory]. *)
Theorem local_store_keeps_one_record_per_key (w : World) :
  keysAscending (idb w) ->
  (forall memory w', saveMemory memory w = (Returns tt, w') -> keysAscending (idb w'))
  /\ (forall key w', deleteMemory key w = (Returns tt, w') -> keysAscending (idb w')).
Proof.
  intros Hinv. split.
  - intros memory w' [= <-]. cbn. now apply idbPut_keysAscending.
  - intros key w' [= <-]. cbn. now apply idbDelete_keysAscending.
Qed.

Lemma local_store_keeps_one_record_per_key_witness :
  keysAscending (idb worldPartialRemote)
  /\ (forall memory w',
        saveMemory memory worldPartialRemote = (Returns tt, w') ->
        keysAscending (idb w')).
Proof.
  assert (Hinv : keysAscending (idb worldPartialRemote)).
  { unfold keysAscending. cbn. repeat constructor. }
  split; [exact Hinv|].
  exact (proj1 (local_store_keeps_one_record_per_key worldPartialRemote Hinv)).
Defined.

(** X8. After [saveMemory memory] the local store holds [memory] under
    its id and nothing else under that id; every record stored under
    another id is there as before. *)
Theorem saveMemory_then_lookup (memory : Memory) (w : World) :
  keysAscending (idb w) ->
  exists w',
    saveMemory memory w = (Returns tt, w')
    /\ (forall x, In x (idb w') <-> x = memory \/ (In x (idb w) /\ id x <> id memory))
    /\ inflight w' = (inflight w ++ [memory])%list
    /\ cloudTable w' = cloudTable w.
Proof.
  intros Hinv. eexists. split; [reflexivity|]. cbn.
  split; [|split; reflexivity].
  intros x. now apply idbPut_In_iff.
Qed.

Lemma saveMemory_then_lookup_witness :
  exists w',
    saveMemory (mkMemory "10" "Jan 6" "sad" "" "") worldOffline = (Returns tt, w')
    /\ forall x, In x (idb w') -> x = mkMemory "10" "Jan 6" "sad" "" "".
Proof.
  destruct (saveMemory_then_lookup (mkMemory "10" "Jan 6" "sad" "" "") worldOffline)
    as (w' & Hrun & Hlookup & _).
  - unfold keysAscending. cbn. repeat constructor.
  - exists w'. split; [exact Hrun|].
    intros x Hx. apply Hlookup in Hx.
    destruct Hx as [->|[[<-|[]] Hne]]; [reflexivity|].
    exfalso. apply Hne. reflexivity.
Defined.

(** X9. Saving the same memory twice leaves the local store as one save
    does; each save starts a push of its own. *)
Theorem saveMemory_twice (memory : Memory) (w : World) :
  exists w1 w2,
    saveMemory memory w = (Returns tt, w1)
    /\ saveMemory memory w1 = (Returns tt, w2)
    /\ idb w2 = idb w1
    /\ inflight w2 = (inflight w ++ [memory; memory])%list.
Proof.
  eexists. eexists. split; [reflexivity|]. split; [reflexivity|]. cbn.
  split; [apply idbPut_twice|]. now rewrite <- app_assoc.
Qed.

(** X10. [deleteMemory] on a key the local store does not hold changes
    nothing. *)
Theorem deleteMemory_missing_key (key : string) (w : World) :
  (forall x, In x (idb w) -> id x <> key) ->
  deleteMemory key w = (Returns tt, w).
Proof.
  intros Habs. unfold deleteMemory, dbDelete.
  rewrite (idbDelete_absent key (idb w) Habs). destruct w; reflexivity.
Qed.

Lemma deleteMemory_missing_key_witness :
  deleteMemory "11" worldOffline = (Returns tt, worldOffline).
Proof.
  apply (deleteMemory_missing_key "11" worldOffline).
  intros x [<-|[]]. discriminate.
Defined.

(** X11. Saving a memory under a new id and deleting that id gives the
    local store back as it was. *)
Theorem saveMemory_then_deleteMemory (memory : Memory) (w : World) :
  (forall x, In x (idb w) -> id x <> id memory) ->
  exists w1 w2,
    saveMemory memory w = (Returns tt, w1)
    /\ deleteMemory (id memory) w1 = (Returns tt, w2)
    /\ idb w2 = idb w.
Proof.
  intros Hnew. eexists. eexists. split; [reflexivity|]. split; [reflexivity|].
  cbn. now apply idbDelete_idbPut.
Qed.

Lemma saveMemory_then_deleteMemory_witness :
  exists w1 w2,
    saveMemory (entry "11") worldOffline = (Returns tt, w1)
    /\ In (entry "11") (idb w1)
    /\ deleteMemory "11" w1 = (Returns tt, w2)
    /\ idb w2 = idb worldOffline.
Proof.
  destruct (saveMemory_then_deleteMemory (entry "11") worldOffline)
    as (w1 & w2 & Hsave & Hdel & Hidb).
  - intros x [<-|[]]. discriminate.
  - exists w1, w2. injection Hsave as <-.
    split; [reflexivity|]. split; [right; left; reflexivity|].
    split; [exact Hdel | exact Hidb].
Defined.

(* ------------------------------------------------------------------ *)
(** ** Synchroniser: reads, background pushes, reconciliation          *)
(* ------------------------------------------------------------------ *)

Lemma fromCloudRow_toCloudRow (memory : Memory) :
  fromCloudRow (toCloudRow memory) = memory.
Proof. destruct memory; reflexivity. Qed.

Lemma upsertRow_In (row : CloudMemory) (t : list CloudMemory) :
  In row (upsertRow row t).
Proof.
  induction t as [|r t IH]; cbn; [now left|].
  destruct (c_id r =? c_id row)%string; [now left | now right].
Qed.

Lemma upsertRow_keeps_others (row r : CloudMemory) (t : list CloudMemory) :
  In r t -> c_id r <> c_id row -> In r (upsertRow row t).
Proof.
  intros Hr Hne. induction t as [|r' t IH]; cbn; [contradiction|].
  destruct (String.eqb_spec (c_id r') (c_id row)) as [Heq|_].
  - destruct Hr as [->|Hr]; [congruence | now right].
  - destruct Hr as [->|Hr]; [now left | right; now apply IH].
Qed.

Section SynchroniserFacts.

Variable link : nat -> Link.

(** What [getMemories] does to the state and what it returns. *)
Lemma getMemories_frame (w : World) :
  exists memories w',
    getMemories link w = (Returns memories, w')
    /\ idb w' = idb w
    /\ cloudTable w' = cloudTable w
    /\ inflight w' = inflight w
    /\ supabaseAnonKey w' = supabaseAnonKey w
    /\ ((memories = map fromCloudRow (orderByIdDesc (cloudTable w))
         /\ memories <> []
         /\ isEmptyString (supabaseAnonKey w) = false
         /\ link (requests w) = Served)
        \/ memories = JS.sort byIdDesc (idb w)).
Proof.
  destruct (getMemoriesFromCloud link w) as [[rows|e] w'] eqn:Hcloud.
  - rewrite (getMemories_cases link w w' rows Hcloud).
    rewrite getMemoriesFromCloud_spec in Hcloud.
    destruct (isEmptyString (supabaseAnonKey w)) eqn:Hkey.
    + injection Hcloud as <- <-. eexists. eexists.
      split; [reflexivity|]. repeat split. now right.
    + destruct (link (requests w)) eqn:Hl; injection Hcloud as <- <-.
      * destruct (orderByIdDesc (cloudTable w)) as [|r rows] eqn:Hrows;
          eexists; eexists; (split; [reflexivity|]); repeat split.
        -- now right.
        -- left. repeat split. discriminate.
      * eexists. eexists. split; [reflexivity|]. repeat split. now right.
      * eexists. eexists. split; [reflexivity|]. repeat split. now right.
  - rewrite getMemoriesFromCloud_spec in Hcloud.
    destruct (isEmptyString (supabaseAnonKey w)); [discriminate|].
    destruct (link (requests w)); discriminate.
Qed.

(** X12. [getMemories] never throws, whatever happens to its request,
    and it changes neither the local store, nor the remote table, nor the
    pushes in flight. *)
Theorem getMemories_never_raises (w : World) :
  exists memories w',
    getMemories link w = (Returns memories, w')
    /\ idb w' = idb w
    /\ cloudTable w' = cloudTable w
    /\ inflight w' = inflight w.
Proof.
  destruct (getMemories_frame w) as (memories & w' & Hrun & Hidb & Ht & Hq & _).
  now exists memories, w'.
Qed.

(** X13. After [deleteMemory key], a [getMemories] that falls back to the
    local store returns no entry with that id. *)
Theorem deleteMemory_then_load_offline (key : string) (w : World) :
  isEmptyString (supabaseAnonKey w) = true
  \/ link (requests w) <> Served
  \/ cloudTable w = [] ->
  exists w1 w2 memories,
    deleteMemory key w = (Returns tt, w1)
    /\ getMemories link w1 = (Returns memories, w2)
    /\ (forall m, In m memories <-> In m (idb w) /\ id m <> key).
Proof.
  intros Hremote.
  set (w1 := setIdb (idbDelete key (idb w)) w).
  destruct (getMemories_frame w1)
    as (memories & w2 & Hrun & _ & _ & _ & _ & Hwhat).
  exists w1, w2, memories. split; [reflexivity|]. split; [exact Hrun|].
  destruct Hwhat as [(Hm & Hne & Hkey & Hl) | ->].
  - cbn in Hm, Hkey, Hl.
    destruct Hremote as [Hk|[Hl'|Ht]]; [congruence | contradiction |].
    rewrite Ht in Hm. cbn in Hm. contradiction.
  - intros m. unfold JS.sort. rewrite <- sortBy_In. cbn. apply idbDelete_In.
Qed.

(** X14. A push left in flight by [saveMemory] that fails (the client is
    not configured, the server refuses, the call throws) is dropped: it
    leaves the queue, the remote table stays as it was, nothing is thrown
    and nothing is tried again. *)
Theorem failed_push_is_dropped (memory : Memory) (q : list Memory) (w : World) :
  inflight w = memory :: q ->
  isEmptyString (supabaseAnonKey w) = true \/ link (requests w) <> Served ->
  exists w',
    settleCloudSave link w = (Returns tt, w')
    /\ inflight w' = q
    /\ cloudTable w' = cloudTable w
    /\ idb w' = idb w.
Proof.
  intros Hq Hfail. unfold settleCloudSave. rewrite Hq.
  unfold tryCatch, bind. rewrite saveMemoryToCloud_spec. cbn.
  destruct (isEmptyString (supabaseAnonKey w)) eqn:Hkey.
  - eexists. split; [reflexivity|]. repeat split.
  - destruct Hfail as [Hk|Hl]; [discriminate|].
    destruct (link (requests w)); [contradiction| |];
      (eexists; split; [reflexivity|]; repeat split).
Qed.

(** X15. A memory saved on a configured device with no other push in
    flight, whose push the server applies, is in the remote table and comes
    back from the next [getMemories] the server answers. *)
Theorem saved_memory_reaches_remote (e : Memory) (w : World) :
  inflight w = [] ->
  isEmptyString (supabaseAnonKey w) = false ->
  link (requests w) = Served ->
  link (S (requests w)) = Served ->
  exists w1 w2 w3 memories,
    saveMemory e w = (Returns tt, w1)
    /\ settleCloudSave link w1 = (Returns tt, w2)
    /\ In (toCloudRow e) (cloudTable w2)
    /\ inflight w2 = []
    /\ getMemories link w2 = (Returns memories, w3)
    /\ In e memories.
Proof.
  intros Hq Hkey Hl0 Hl1.
  set (w1 := setInflight (inflight w ++ [e]) (setIdb (idbPut e (idb w)) w)).
  assert (Hsettle : exists w2,
             settleCloudSave link w1 = (Returns tt, w2)
             /\ cloudTable w2 = upsertRow (toCloudRow e) (cloudTable w)
             /\ inflight w2 = []
             /\ requests w2 = S (requests w)
             /\ supabaseAnonKey w2 = supabaseAnonKey w).
  { unfold settleCloudSave, w1. cbn. rewrite Hq. cbn.
    unfold tryCatch, bind. rewrite saveMemoryToCloud_spec. cbn.
    rewrite Hkey, Hl0. eexists. split; [reflexivity|]. repeat split. }
  destruct Hsettle as (w2 & Hsettle & Ht & Hq2 & Hr & Hk).
  assert (Hrow : In (toCloudRow e) (cloudTable w2))
    by (rewrite Ht; apply upsertRow_In).
  destruct (getMemories_frame w2)
    as (memories & w3 & Hrun & _ & _ & _ & _ & Hwhat).
  exists w1, w2, w3, memories.
  split; [reflexivity|]. split; [exact Hsettle|]. split; [exact Hrow|].
  split; [exact Hq2|]. split; [exact Hrun|].
  assert (Hcloud : getMemoriesFromCloud link w2
                   = (Returns (orderByIdDesc (cloudTable w2)),
                      setRequests (S (requests w2)) w2)).
  { rewrite getMemoriesFromCloud_spec, Hk, Hkey, Hr, Hl1. reflexivity. }
  rewrite (getMemories_cases link w2 _ _ Hcloud) in Hrun.
  assert (Hin : In (toCloudRow e) (orderByIdDesc (cloudTable w2)))
    by (now apply (proj1 (sortBy_In _ (toCloudRow e) (cloudTable w2)))).
  destruct (orderByIdDesc (cloudTable w2)) as [|r rows] eqn:Hrows; [contradiction|].
  injection Hrun as <- _.
  apply (proj2 (in_map_iff fromCloudRow (r :: rows) e)).
  exists (toCloudRow e). split; [apply fromCloudRow_toCloudRow | exact Hin].
Qed.

End SynchroniserFacts.

Lemma deleteMemory_then_load_offline_witness :
  exists w1 w2 memories,
    deleteMemory "1743249600000" worldPartialRemote = (Returns tt, w1)
    /\ getMemories linkDown w1 = (Returns memories, w2)
    /\ In (entry "1743332400000") memories
    /\ ~ In (entry "1743249600000") memories.
Proof.
  destruct (deleteMemory_then_load_offline linkDown "1743249600000" worldPartialRemote)
    as (w1 & w2 & memories & Hdel & Hload & Hwhat).
  - right; left. discriminate.
  - exists w1, w2, memories. split; [exact Hdel|]. split; [exact Hload|]. split.
    + apply Hwhat. split; [right; left; reflexivity | discriminate].
    + intros Hin. apply Hwhat in Hin. destruct Hin as [_ Hne]. now apply Hne.
Defined.

Lemma failed_push_is_dropped_witness :
  exists w',
    settleCloudSave linkDown
      (mkWorld [entry "10"] "anon-key" [] 0 [entry "10"]) = (Returns tt, w')
    /\ inflight w' = []
    /\ cloudTable w' = [].
Proof.
  destruct (failed_push_is_dropped linkDown (entry "10") []
              (mkWorld [entry "10"] "anon-key" [] 0 [entry "10"]))
    as (w' & Hrun & Hq & Ht & _).
  - reflexivity.
  - right. discriminate.
  - now exists w'.
Defined.

Lemma saved_memory_reaches_remote_witness :
  exists w1 w2 w3 memories,
    saveMemory (entry "1743332400000") worldQuotes = (Returns tt, w1)
    /\ settleCloudSave linkUp w1 = (Returns tt, w2)
    /\ getMemories linkUp w2 = (Returns memories, w3)
    /\ In (entry "1743332400000") memories.
Proof.
  destruct (saved_memory_reaches_remote linkUp (entry "1743332400000") worldQuotes)
    as (w1 & w2 & w3 & memories & Hsave & Hsettle & _ & _ & Hload & Hin);
    try reflexivity.
  now exists w1, w2, w3, memories.
Defined.

Lemma keysAscending_NoDup (store : list Memory) :
  keysAscending store -> NoDup (map id store).
Proof.
  unfold keysAscending. intros Hs.
  induction Hs as [|x store Hs IH Hx]; cbn; constructor; [|exact IH].
  intros Hin. apply in_map_iff in Hin. destruct Hin as (y & Heq & Hy).
  rewrite Forall_forall in Hx. apply (keyLt_neq x y (Hx y Hy)). now symmetry.
Qed.

Section ReconciliationFacts.

Variable link : nat -> Link.

(** The loop of [syncLocalToCloud] when the server applies every push. *)
Lemma syncLoop_all_served (localMemories : list Memory) :
  forall (synced failed : nat) (w : World),
    NoDup (map id localMemories) ->
    isEmptyString (supabaseAnonKey w) = false ->
    (forall i, (i < List.length localMemories)%nat ->
               link (requests w + i)%nat = Served) ->
    exists w',
      syncLoop link localMemories synced failed w
        = (Returns ((synced + List.length localMemories)%nat, failed), w')
      /\ (forall m, In m localMemories -> In (toCloudRow m) (cloudTable w'))
      /\ (forall r, In r (cloudTable w) -> ~ In (c_id r) (map id localMemories) ->
                    In r (cloudTable w'))
      /\ requests w' = (requests w + List.length localMemories)%nat
      /\ supabaseAnonKey w' = supabaseAnonKey w
      /\ idb w' = idb w.
Proof.
  induction localMemories as [|memory rest IH]; intros synced failed w Hnd Hkey Hlink.
  - exists w. cbn. unfold ret. rewrite !Nat.add_0_r. repeat split; auto.
    intros m [].
  - inversion Hnd as [|? ? Hfresh Hnd']; subst.
    cbn [syncLoop]. unfold bind, tryCatch. rewrite saveMemoryToCloud_spec, Hkey.
    pose proof (Hlink 0%nat ltac:(cbn; lia)) as Hl0.
    rewrite Nat.add_0_r in Hl0. rewrite Hl0. cbn [fst snd ret].
    set (w1 := setCloudTable (upsertRow (toCloudRow memory) (cloudTable w))
                             (setRequests (S (requests w)) w)).
    destruct (IH (S synced) failed w1 Hnd' Hkey) as (w' & Hrun & Hrows & Hkeep & Hr & Hk & Hidb).
    { intros i Hi. cbn. rewrite <- Nat.add_succ_r. apply Hlink. cbn. lia. }
    exists w'. rewrite Hrun. cbn [List.length].
    split; [same_counters|]. split; [|split; [|split; [|split]]].
    + intros m [<-|Hm]; [|now apply Hrows].
      apply Hkeep; [apply upsertRow_In | exact Hfresh].
    + intros r Hr' Hnot. apply Hkeep.
      * apply upsertRow_keeps_others; [exact Hr'|].
        intros Heq. apply Hnot. left. now symmetry.
      * intros Hin. apply Hnot. now right.
    + rewrite Hr. cbn. lia.
    + exact Hk.
    + exact Hidb.
Qed.

(** X16. When the client is configured and the server applies every
    push of the pass, [syncLocalToCloud] counts every local entry as synced
    and none as failed, every local entry has its row in the remote table,
    and the next [getMemories] returns every local entry. *)
Theorem reconciliation_makes_remote_cover_local (w : World) :
  keysAscending (idb w) ->
  isEmptyString (supabaseAnonKey w) = false ->
  (forall i, (i < List.length (idb w))%nat -> link (requests w + i)%nat = Served) ->
  exists w',
    syncLocalToCloud link w = (Returns (List.length (idb w), 0%nat), w')
    /\ idb w' = idb w
    /\ (forall m, In m (idb w) -> In (toCloudRow m) (cloudTable w'))
    /\ exists memories w'',
         getMemories link w' = (Returns memories, w'')
         /\ forall m, In m (idb w) -> In m memories.
Proof.
  intros Hinv Hkey Hlink.
  destruct (syncLoop_all_served (idb w) 0%nat 0%nat w
              (keysAscending_NoDup _ Hinv) Hkey Hlink)
    as (w' & Hrun & Hrows & _ & _ & _ & Hidb).
  exists w'. split; [exact Hrun|]. split; [exact Hidb|]. split; [exact Hrows|].
  destruct (getMemories_frame link w')
    as (memories & w'' & Hload & _ & _ & _ & _ & Hwhat).
  exists memories, w''. split; [exact Hload|].
  intros m Hm. destruct Hwhat as [(-> & _) | ->].
  - apply (proj2 (in_map_iff fromCloudRow _ m)).
    exists (toCloudRow m). split; [apply fromCloudRow_toCloudRow|].
    apply (proj1 (sortBy_In _ (toCloudRow m) (cloudTable w'))). now apply Hrows.
  - rewrite Hidb. now apply (proj1 (sortBy_In _ m (idb w))).
Qed.

(** The loop of [syncLocalToCloud] when the server applies none of the
    pushes. *)
Lemma syncLoop_none_served (localMemories : list Memory) :
  forall (synced failed : nat) (w : World),
    isEmptyString (supabaseAnonKey w) = false ->
    (forall i, (i < List.length localMemories)%nat ->
               link (requests w + i)%nat <> Served) ->
    exists w',
      syncLoop link localMemories synced failed w
        = (Returns (synced, (failed + List.length localMemories)%nat), w')
      /\ idb w' = idb w
      /\ cloudTable w' = cloudTable w
      /\ inflight w' = inflight w
      /\ requests w' = (requests w + List.length localMemories)%nat.
Proof.
  induction localMemories as [|memory rest IH]; intros synced failed w Hkey Hlink.
  - exists w. cbn. unfold ret. rewrite !Nat.add_0_r. repeat split.
  - cbn [syncLoop]. unfold bind, tryCatch. rewrite saveMemoryToCloud_spec, Hkey.
    pose proof (Hlink 0%nat ltac:(cbn; lia)) as Hl0. rewrite Nat.add_0_r in Hl0.
    set (w1 := setRequests (S (requests w)) w).
    assert (Hstep : (match link (requests w) with
                     | Served =>
                         (Returns true,
                          setCloudTable (upsertRow (toCloudRow memory) (cloudTable w)) w1)
                     | Refused | Broken => (Returns false, w1)
                     end) = (Returns false, w1))
      by (destruct (link (requests w)); [contradiction | reflexivity | reflexivity]).
    fold w1. rewrite Hstep. cbn [fst snd ret].
    destruct (IH synced (S failed) w1 Hkey) as (w' & Hrun & Hidb & Ht & Hq & Hr).
    { intros i Hi. cbn. rewrite <- Nat.add_succ_r. apply Hlink. cbn. lia. }
    exists w'. rewrite Hrun. cbn [List.length].
    split; [same_counters|]. repeat split; try assumption.
    rewrite Hr. cbn. lia.
Qed.

(** X17. When the client is configured and the server applies none of
    the pushes of the pass, each being refused or failing with an
    exception, [syncLocalToCloud] counts no entry as synced and every
    local entry as failed, sends one request per entry and leaves the
    local store, the remote table and the pushes in flight as they
    were. *)
Theorem reconciliation_all_pushes_fail (w : World) :
  isEmptyString (supabaseAnonKey w) = false ->
  (forall i, (i < List.length (idb w))%nat -> link (requests w + i)%nat <> Served) ->
  exists w',
    syncLocalToCloud link w = (Returns (0%nat, List.length (idb w)), w')
    /\ idb w' = idb w
    /\ cloudTable w' = cloudTable w
    /\ inflight w' = inflight w
    /\ requests w' = (requests w + List.length (idb w))%nat.
Proof.
  intros Hkey Hlink. unfold syncLocalToCloud, bind, dbGetAll.
  apply (syncLoop_none_served (idb w) 0%nat 0%nat w Hkey Hlink).
Qed.

(** X18. [exportMemoriesToCSV] never throws and changes neither store; it
    returns null exactly when [getMemories] returns no memory, which is
    the case when the remote store yields nothing and the local store is
    empty. *)
Theorem exportMemoriesToCSV_null_iff_no_memories (w : World) :
  exists result memories w',
    exportMemoriesToCSV link w = (Returns result, w')
    /\ getMemories link w = (Returns memories, w')
    /\ idb w' = idb w
    /\ cloudTable w' = cloudTable w
    /\ (result = None <-> memories = [])
    /\ (memories = [] -> idb w = []).
Proof.
  destruct (getMemories_frame link w)
    as (memories & w' & Hload & Hidb & Ht & _ & _ & Hwhat).
  unfold exportMemoriesToCSV, bind. rewrite Hload.
  destruct memories as [|m memories]; cbn.
  - exists None, [], w'. repeat split; auto.
    intros _. destruct Hwhat as [(_ & Hne & _) | Hsort]; [now contradiction Hne|].
    destruct (idb w) as [|x store]; [reflexivity|].
    exfalso. assert (Hin : In x (JS.sort byIdDesc (x :: store)))
      by (apply (proj1 (sortBy_In _ x (x :: store))); now left).
    rewrite <- Hsort in Hin. contradiction.
  - eexists. exists (m :: memories), w'. split; [reflexivity|].
    repeat split; auto; discriminate.
Qed.

End ReconciliationFacts.

Lemma reconciliation_makes_remote_cover_local_witness :
  exists w',
    syncLocalToCloud linkUp worldPartialRemote = (Returns (2%nat, 0%nat), w')
    /\ exists memories w'',
         getMemories linkUp w' = (Returns memories, w'')
         /\ In (entry "1743249600000") memories
         /\ In (entry "1743332400000") memories.
Proof.
  destruct (reconciliation_makes_remote_cover_local linkUp worldPartialRemote)
    as (w' & Hrun & _ & _ & memories & w'' & Hload & Hall).
  - unfold keysAscending. cbn. repeat constructor.
  - reflexivity.
  - reflexivity.
  - exists w'. split; [exact Hrun|]. exists memories, w''.
    split; [exact Hload|].
    split; apply Hall; cbn; auto.
Defined.

Lemma reconciliation_all_pushes_fail_witness :
  exists w',
    syncLocalToCloud linkDown worldPartialRemote = (Returns (0%nat, 2%nat), w')
    /\ idb w' = idb worldPartialRemote
    /\ cloudTable w' = cloudTable worldPartialRemote.
Proof.
  destruct (reconciliation_all_pushes_fail linkDown worldPartialRemote)
    as (w' & Hrun & Hidb & Ht & _).
  - reflexivity.
  - intros i _. discriminate.
  - now exists w'.
Defined.

(* ------------------------------------------------------------------ *)
(** ** CSV export: the rows read back                                  *)
(* ------------------------------------------------------------------ *)

Lemma string_app_assoc (a b c : string) : ((a ++ b) ++ c = a ++ (b ++ c))%string.
Proof. induction a as [|x a IH]; cbn; [reflexivity | now rewrite IH]. Qed.

Lemma string_app_nil_r (a : string) : (a ++ "" = a)%string.
Proof. induction a as [|x a IH]; cbn; [reflexivity | now rewrite IH]. Qed.

(** Inside a field the reader takes the escaped form of [s] for [s]. *)
Lemma readRow_escaped (s : string) :
  forall (rest field : string) (fields : list string),
    readRow (replaceQuotes s ++ rest) InField field fields
    = readRow rest InField (field ++ s) fields.
Proof.
  induction s as [|c s IH]; intros rest field fields.
  - cbn. now rewrite string_app_nil_r.
  - cbn [replaceQuotes]. destruct (Ascii.eqb c dquote) eqn:Hc.
    + apply Ascii.eqb_eq in Hc. subst c.
      cbn [append readRow]. rewrite Ascii.eqb_refl.
      rewrite IH, string_app_assoc. reflexivity.
    + cbn [append readRow]. rewrite Hc.
      rewrite IH, string_app_assoc. reflexivity.
Qed.

Lemma replaceQuotes_plain (s : string) :
  hasQuote s = false -> replaceQuotes s = s.
Proof.
  induction s as [|c s IH]; cbn; [reflexivity|].
  intros H. apply orb_false_iff in H. destruct H as [Hc Hs].
  rewrite Hc. now rewrite IH.
Qed.

Lemma hasQuote_app (a b : string) :
  hasQuote (a ++ b) = hasQuote a || hasQuote b.
Proof.
  induction a as [|c a IH]; cbn; [reflexivity|].
  now rewrite IH, orb_assoc.
Qed.

(** A quoted, escaped field followed by a comma. *)
Lemma readRow_field (s rest : string) (fields : list string) :
  readRow (quoted (replaceQuotes s) ++ String ","%char rest) FieldStart "" fields
  = readRow rest FieldStart "" (fields ++ [s])%list.
Proof.
  unfold quoted. cbn [append readRow]. rewrite Ascii.eqb_refl.
  rewrite string_app_assoc, readRow_escaped.
  cbn [append readRow]. rewrite Ascii.eqb_refl. cbn. reflexivity.
Qed.

(** A quoted, escaped field at the end of the row. *)
Lemma readRow_last_field (s : string) (fields : list string) :
  readRow (quoted (replaceQuotes s)) FieldStart "" fields = Some (fields ++ [s])%list.
Proof.
  unfold quoted. cbn [append readRow]. rewrite Ascii.eqb_refl.
  rewrite readRow_escaped. cbn [append readRow]. rewrite Ascii.eqb_refl. reflexivity.
Qed.

(** X19. A reader that follows the quoting convention of CSV recovers
    from the row of a memory its date, its mood, its summary and the
    preview of its image, whatever commas, line breaks and double quotes
    the mood and the summary hold, provided the date and the first 100
    characters of the image address hold no double quote. *)
Theorem csvRow_reads_back (m : Memory) :
  hasQuote (date m) = false ->
  hasQuote (substring 0 100 (imageUrl m)) = false ->
  readCsvRow (csvRow m)
  = Some [date m; mood m; summary m; (substring 0 100 (imageUrl m) ++ "...")%string].
Proof.
  intros Hdate Himage.
  assert (Hpreview : hasQuote (substring 0 100 (imageUrl m) ++ "...") = false)
    by (rewrite hasQuote_app, Himage; reflexivity).
  unfold readCsvRow, csvRow, csvFields. cbn [String.concat].
  rewrite <- (replaceQuotes_plain (date m) Hdate).
  rewrite <- (replaceQuotes_plain _ Hpreview) at 1.
  change ","%string with (String ","%char ""). cbn [append].
  rewrite !readRow_field, readRow_last_field.
  cbn [app]. rewrite !(replaceQuotes_plain _ Hdate). reflexivity.
Qed.

Lemma csvRow_reads_back_witness :
  readCsvRow (csvRow entryAwkwardText)
  = Some ["Mar 29";
          mood entryAwkwardText;
          summary entryAwkwardText;
          "data:image/png;base64,AAAA..."].
Proof.
  apply (csvRow_reads_back entryAwkwardText); reflexivity.
Defined.

(* ------------------------------------------------------------------ *)
(** ** The order of the entries read from the remote store             *)
(* ------------------------------------------------------------------ *)

Lemma digitVal_range (c : ascii) (d : Z) :
  JS.digitVal c = Some d ->
  0 <= d <= 9 /\ Z.of_N (N_of_ascii c) = d + 48.
Proof.
  unfold JS.digitVal, nat_of_ascii.
  destruct ((48 <=? N.to_nat (N_of_ascii c))%nat) eqn:Hlo; [|discriminate].
  destruct ((N.to_nat (N_of_ascii c) <=? 57)%nat) eqn:Hhi; [|discriminate].
  cbn. intros [= <-].
  apply Nat.leb_le in Hlo, Hhi. lia.
Qed.

Lemma parseDigits_value (s : string) :
  allDigits s = true ->
  0 <= digitsValue s < 10 ^ Z.of_nat (String.length s)
  /\ forall acc, JS.parseDigits acc s
                 = Some (acc * 10 ^ Z.of_nat (String.length s) + digitsValue s).
Proof.
  induction s as [|c s IH]; intros Hd.
  - cbn. split; [lia|]. intros acc. f_equal. lia.
  - cbn [allDigits] in Hd. destruct (JS.digitVal c) as [d|] eqn:Hc; [|discriminate].
    destruct (IH Hd) as [Hrange Hacc].
    destruct (digitVal_range c d Hc) as [Hdr _].
    cbn [String.length]. rewrite Nat2Z.inj_succ, Z.pow_succ_r by lia.
    assert (Hv : digitsValue (String c s)
                 = d * 10 ^ Z.of_nat (String.length s) + digitsValue s).
    { unfold digitsValue at 1. cbn [JS.parseDigits]. rewrite Hc, Hacc.
      f_equal. }
    rewrite Hv. split; [nia|].
    intros acc. cbn [JS.parseDigits]. rewrite Hc, Hacc. f_equal. ring.
Qed.

Lemma Number_of_digits (s : string) :
  allDigits s = true -> JS.Number s = Some (digitsValue s).
Proof.
  intros Hd. unfold JS.Number.
  rewrite (proj2 (parseDigits_value s Hd) 0). f_equal.
Qed.

(** On strings of digits of one length the order of the strings is the
    order of the numbers. *)
Lemma compare_digits_same_length (a : string) :
  forall b : string,
    allDigits a = true -> allDigits b = true ->
    String.length a = String.length b ->
    String.compare a b = (digitsValue a ?= digitsValue b)%Z.
Proof.
  induction a as [|x a IH]; intros [|y b] Ha Hb Hlen; try discriminate.
  - reflexivity.
  - cbn [allDigits] in Ha, Hb.
    destruct (JS.digitVal x) as [dx|] eqn:Hx; [|discriminate].
    destruct (JS.digitVal y) as [dy|] eqn:Hy; [|discriminate].
    injection Hlen as Hlen.
    destruct (parseDigits_value a Ha) as [Hra Hacca].
    destruct (parseDigits_value b Hb) as [Hrb Haccb].
    destruct (digitVal_range x dx Hx) as [Hdx Hnx].
    destruct (digitVal_range y dy Hy) as [Hdy Hny].
    assert (Hva : digitsValue (String x a)
                  = dx * 10 ^ Z.of_nat (String.length a) + digitsValue a).
    { unfold digitsValue at 1. cbn [JS.parseDigits]. rewrite Hx, Hacca. f_equal. }
    assert (Hvb : digitsValue (String y b)
                  = dy * 10 ^ Z.of_nat (String.length a) + digitsValue b).
    { unfold digitsValue at 1. cbn [JS.parseDigits]. rewrite Hy, Haccb, Hlen. f_equal. }
    rewrite Hva, Hvb. rewrite <- Hlen in Hrb.
    set (P := 10 ^ Z.of_nat (String.length a)) in *.
    cbn [String.compare]. unfold Ascii.compare.
    destruct (N.compare_spec (N_of_ascii x) (N_of_ascii y)) as [Heq|Hlt|Hgt].
    + assert (dx = dy) by lia. subst dy.
      rewrite (IH b Ha Hb Hlen).
      destruct (Z.compare_spec (digitsValue a) (digitsValue b));
        symmetry; [apply Z.compare_eq_iff | apply Z.compare_lt_iff
                  | apply Z.compare_gt_iff]; lia.
    + symmetry. apply Z.compare_lt_iff. nia.
    + symmetry. apply Z.compare_gt_iff. nia.
Qed.

Section SortByFacts.

Context {A : Type} (before : A -> A -> bool) (R : A -> A -> Prop) (P : A -> Prop).

Hypothesis R_trans : forall x y z, R x y -> R y z -> R x z.
Hypothesis before_R :
  forall x y, P x -> P y -> if before x y then R x y else R y x.

Lemma insertBy_StronglySorted (x : A) (l : list A) :
  P x -> Forall P l -> StronglySorted R l ->
  StronglySorted R (JS.insertBy before x l).
Proof.
  intros Hx Hl Hs. induction Hs as [|y l Hs IH Hy]; cbn.
  - constructor; constructor.
  - inversion Hl as [|? ? Hpy Hpl]; subst.
    pose proof (before_R x y Hx Hpy) as Hcmp.
    destruct (before x y).
    + constructor; [now constructor|].
      constructor; [assumption|].
      eapply Forall_impl; [|exact Hy]. intros z Hz. now apply R_trans with y.
    + constructor; [now apply IH|].
      apply Forall_forall. intros z Hz.
      apply (Permutation_in _ (insertBy_Permutation before x l)) in Hz.
      destruct Hz as [<-|Hz]; [assumption|].
      rewrite Forall_forall in Hy. now apply Hy.
Qed.

Lemma sortBy_StronglySorted (l : list A) :
  Forall P l -> StronglySorted R (JS.sortBy before l).
Proof.
  induction l as [|x l IH]; intros Hl; cbn; [constructor|].
  inversion Hl as [|? ? Hx Hl']; subst.
  apply insertBy_StronglySorted; [assumption| |now apply IH].
  apply Forall_forall. intros z Hz. rewrite Forall_forall in Hl'.
  apply Hl'. now apply (proj2 (sortBy_In before z l)).
Qed.

End SortByFacts.

Lemma sortedByIdDesc_map_fromCloudRow (rows : list CloudMemory) :
  StronglySorted (fun r1 r2 => idGe (fromCloudRow r1) (fromCloudRow r2)) rows ->
  sortedByIdDesc (map fromCloudRow rows).
Proof.
  unfold sortedByIdDesc. intros Hs.
  induction Hs as [|r rows Hs IH Hr]; cbn [map]; constructor; [exact IH|].
  apply Forall_forall. intros m Hm.
  apply in_map_iff in Hm. destruct Hm as (r' & <- & Hr').
  rewrite Forall_forall in Hr. now apply Hr.
Qed.

(** X20. The remote store orders the rows by id as text.  When every id
    of the remote table is made of the same number of decimal digits (13
    for every timestamp between 2001 and 2286), the list [getMemories]
    returns from the remote store is in descending order of the numeric
    value of the ids, the order [calculateStreak] relies on. *)
Theorem remote_order_is_numeric_on_equal_length_ids
    (link : nat -> Link) (n : nat) (w : World) :
  isEmptyString (supabaseAnonKey w) = false ->
  link (requests w) = Served ->
  cloudTable w <> [] ->
  Forall (fun r => digitsOfLength n (c_id r)) (cloudTable w) ->
  exists memories w',
    getMemories link w = (Returns memories, w')
    /\ memories = map fromCloudRow (orderByIdDesc (cloudTable w))
    /\ sortedByIdDesc memories.
Proof.
  intros Hkey Hl Hne Hids.
  assert (Hcloud : getMemoriesFromCloud link w
                   = (Returns (orderByIdDesc (cloudTable w)),
                      setRequests (S (requests w)) w)).
  { rewrite getMemoriesFromCloud_spec, Hkey, Hl. reflexivity. }
  exists (map fromCloudRow (orderByIdDesc (cloudTable w))),
    (setRequests (S (requests w)) w).
  split; [|split; [reflexivity|]].
  - rewrite (getMemories_cases link w _ _ Hcloud).
    destruct (orderByIdDesc (cloudTable w)) as [|r rows] eqn:Hrows; [|reflexivity].
    destruct (cloudTable w) as [|r0 t]; [contradiction|].
    assert (Hin : In r0 (orderByIdDesc (r0 :: t)))
      by (apply (proj1 (sortBy_In _ r0 (r0 :: t))); now left).
    rewrite Hrows in Hin. contradiction.
  - assert (Hs : StronglySorted
                   (fun r1 r2 => idGe (fromCloudRow r1) (fromCloudRow r2))
                   (orderByIdDesc (cloudTable w))).
    { unfold orderByIdDesc.
      apply sortBy_StronglySorted
        with (P := fun r => digitsOfLength n (c_id r)); [| |exact Hids].
      - intros x y z. apply idGe_trans.
      - intros x y [Hdx Hlx] [Hdy Hly].
        unfold String.leb.
        rewrite (compare_digits_same_length (c_id y) (c_id x) Hdy Hdx)
          by congruence.
        destruct (Z.compare_spec (digitsValue (c_id y)) (digitsValue (c_id x)));
          [exists (digitsValue (c_id x)), (digitsValue (c_id y))
          |exists (digitsValue (c_id x)), (digitsValue (c_id y))
          |exists (digitsValue (c_id y)), (digitsValue (c_id x))];
          cbn [fromCloudRow id];
          (split; [now apply Number_of_digits|]);
          (split; [now apply Number_of_digits | lia]). }
    now apply sortedByIdDesc_map_fromCloudRow.
Qed.

Lemma remote_order_is_numeric_on_equal_length_ids_witness :
  exists w',
    getMemories linkUp
      (mkWorld [] "anon-key"
               [toCloudRow mar29; toCloudRow mar31; toCloudRow mar30] 0 [])
    = (Returns [mar31; mar30; mar29], w')
    /\ sortedByIdDesc [mar31; mar30; mar29].
Proof.
  destruct (remote_order_is_numeric_on_equal_length_ids linkUp 13
              (mkWorld [] "anon-key"
                       [toCloudRow mar29; toCloudRow mar31; toCloudRow mar30] 0 []))
    as (memories & w' & Hload & Hwhat & Hsorted).
  - reflexivity.
  - reflexivity.
  - discriminate.
  - repeat constructor.
  - exists w'. subst memories. split; [exact Hload | exact Hsorted].
Defined.

(** With ids of different lengths the order of the remote store is not
    the numeric one: "9" comes before "10". *)
Example remote_order_is_textual :
  fst (getMemories linkUp worldNineTen) = Returns [entry "9"; entry "10"]
  /\ ~ sortedByIdDesc [entry "9"; entry "10"].
Proof.
  split; [reflexivity|].
  unfold sortedByIdDesc. intros Hs.
  inversion Hs as [|? ? _ Hhead]; subst.
  inversion Hhead as [|? ? (x & y & Hx & Hy & Hle) _]; subst.
  vm_compute in Hx, Hy. injection Hx as <-. injection Hy as <-. lia.
Qed.

(* ------------------------------------------------------------------ *)
(** ** Posting an entry                                                *)
(* ------------------------------------------------------------------ *)

Lemma digitVal_digitChar (d : Z) :
  0 <= d <= 9 -> JS.digitVal (digitChar d) = Some d.
Proof.
  intros Hd.
  assert (H : d = 0 \/ d = 1 \/ d = 2 \/ d = 3 \/ d = 4 \/ d = 5 \/ d = 6
              \/ d = 7 \/ d = 8 \/ d = 9) by lia.
  repeat (destruct H as [->|H]; [reflexivity|]). subst. reflexivity.
Qed.

Lemma parseDigits_printDigits (fuel : nat) :
  forall (n : Z) (s : string),
    0 <= n < 2 ^ Z.of_nat fuel ->
    JS.parseDigits 0 (printDigits fuel n s) = JS.parseDigits n s.
Proof.
  induction fuel as [|fuel IH]; intros n s Hn.
  - cbn in *. replace n with 0 by lia. reflexivity.
  - rewrite Nat2Z.inj_succ, Z.pow_succ_r in Hn by lia.
    cbn [printDigits].
    pose proof (Z.mod_pos_bound n 10 eq_refl) as Hmod.
    pose proof (Z.div_mod n 10 ltac:(lia)) as Hdiv.
    destruct (Z.ltb_spec n 10).
    + cbn [JS.parseDigits]. rewrite digitVal_digitChar by lia.
      f_equal. rewrite Z.mod_small by lia. lia.
    + rewrite IH.
      * cbn [JS.parseDigits]. rewrite digitVal_digitChar by lia. f_equal. lia.
      * split; [apply Z.div_pos; lia|].
        apply Z.div_lt_upper_bound; lia.
Qed.

Lemma Number_of_numberToString (n : Z) :
  0 <= n -> JS.Number (numberToString n) = Some n.
Proof.
  intros Hn. unfold JS.Number, numberToString.
  rewrite parseDigits_printDigits; [reflexivity|].
  split; [exact Hn|].
  rewrite Nat2Z.inj_succ, Z2Nat.id by apply Z.log2_nonneg.
  destruct (Z.eq_dec n 0) as [->|Hpos]; [reflexivity|].
  apply Z.log2_spec. lia.
Qed.

(** X21. The id [handlePost] writes is read back as the instant of the
    post: [Number] of the decimal string of a clock reading is that
    reading, and the string is made of decimal digits only. *)
Theorem Number_numberToString (n : Z) :
  0 <= n ->
  JS.Number (numberToString n) = Some n /\ allDigits (numberToString n) = true.
Proof.
  intros Hn. split; [now apply Number_of_numberToString|].
  pose proof (Number_of_numberToString n Hn) as Hparse.
  unfold JS.Number in Hparse.
  assert (Hgen : forall s acc v, JS.parseDigits acc s = Some v -> allDigits s = true).
  { induction s as [|c s IH]; intros acc v; cbn; [reflexivity|].
    destruct (JS.digitVal c); [apply IH | discriminate]. }
  exact (Hgen _ _ _ Hparse).
Qed.

Lemma Number_numberToString_witness :
  numberToString 1743418800000 = "1743418800000"
  /\ JS.Number (numberToString 1743418800000) = Some 1743418800000.
Proof.
  split; [reflexivity|].
  exact (proj1 (Number_numberToString 1743418800000 ltac:(lia))).
Defined.

Section PostFacts.

Variable LocalTZA : Z -> bool -> Z.
Variable trim : string -> string.

Lemma isEmptyString_false (s : string) : isEmptyString s = false <-> s <> ""%string.
Proof. destruct s; cbn; split; congruence. Qed.

Lemma currentSummary_not_empty (inputMood : string) (wishTexts : list string) :
  currentSummary trim inputMood wishTexts <> ""%string.
Proof.
  unfold currentSummary.
  destruct (isEmptyString (trim inputMood) && (0 <? List.length wishTexts)%nat).
  - destruct (isEmptyString (String.concat ". " wishTexts)) eqn:He;
      [discriminate | now apply isEmptyString_false].
  - destruct (isEmptyString (trim inputMood)) eqn:He;
      [discriminate | now apply isEmptyString_false].
Qed.

(** X22. [handlePost] never throws.  Without a captured image it stores
    nothing.  With one, the new memory is put in front of the list, saved
    in the local store and left in flight to the remote store; it carries
    the image, its mood and its summary are never empty, its id reads back
    as the clock reading, and the streak is the one of the new list. *)
Theorem handlePost_effect
    (now clock : Z) (dateLabel : string) (capturedImage : option string)
    (inputMood : string) (wishTexts : list string) (st : AppState) (w : World) :
  0 <= clock ->
  exists st' w',
    handlePost LocalTZA trim now clock dateLabel capturedImage inputMood wishTexts st w
      = (Returns st', w')
    /\ match capturedImage with
       | Some (String _ _ as image) =>
           exists memory,
             appMemories st' = memory :: appMemories st
             /\ appStreak st' = calculateStreak LocalTZA now (appMemories st')
             /\ In memory (idb w')
             /\ inflight w' = (inflight w ++ [memory])%list
             /\ cloudTable w' = cloudTable w
             /\ imageUrl memory = image
             /\ mood memory <> ""%string
             /\ summary memory <> ""%string
             /\ JS.Number (id memory) = Some clock
       | Some EmptyString | None => st' = st /\ w' = w
       end.
Proof.
  intros Hclock. destruct capturedImage as [[|c image]|]; cbn [handlePost isEmptyString].
  - exists st, w. repeat split.
  - eexists. eexists. split; [reflexivity|].
    eexists. cbn. repeat split.
    + apply idbPut_In.
    + unfold newMemory. cbn [mood].
      destruct (isEmptyString inputMood) eqn:He;
        [destruct (0 <? List.length wishTexts)%nat; discriminate
        | now apply isEmptyString_false].
    + apply currentSummary_not_empty.
    + now apply Number_of_numberToString.
  - exists st, w. repeat split.
Qed.

(** The new memory falls on the calendar day of its clock reading. *)
Lemma newMemory_calendarDay
    (clock : Z) (dateLabel inputMood : string) (wishTexts : list string)
    (image : string) :
  0 <= clock <= JS.maxTime ->
  (exists ts, JS.Number (id (newMemory trim clock dateLabel inputMood wishTexts image))
              = Some ts /\ 0 <= ts <= JS.maxTime)
  /\ calendarDay LocalTZA (newMemory trim clock dateLabel inputMood wishTexts image)
     = Some (JS.localDay LocalTZA clock).
Proof.
  intros Hclock.
  assert (Hid : JS.Number (id (newMemory trim clock dateLabel inputMood wishTexts image))
                = Some clock) by (cbn; apply Number_of_numberToString; lia).
  split; [now exists clock|].
  apply calendarDay_of_number; [exact Hid | lia].
Qed.

Lemma walkDays_shift (rest : list JS.num) :
  forall (prev : JS.num) (k j : Z),
    walkDays prev rest (k + j) = walkDays prev rest k + j.
Proof.
  induction rest as [|curr rest IH]; intros prev k j; cbn [walkDays]; [reflexivity|].
  destruct (JS.strictEq (JS.sub prev curr) (Some oneDay)).
  - replace (k + j + 1) with (k + 1 + j) by lia. apply IH.
  - destruct (JS.strictEq (JS.sub prev curr) (Some 0)); [apply IH | reflexivity].
Qed.

(** X23. On a host whose zone keeps one offset, a post made and counted
    on one calendar day gives: the streak of the list before it when the
    newest entry so far is of today; that streak plus one when the newest
    entry so far is of yesterday; 1 when there is no entry so far or the
    newest is of any other day. *)
Theorem post_streak_at_fixed_offset
    (offset now clock : Z) (dateLabel inputMood : string)
    (wishTexts : list string) (image : string) (memories : list Memory) :
  zoneFixedOffset LocalTZA offset ->
  0 <= clock <= JS.maxTime ->
  0 <= now <= JS.maxTime ->
  JS.localDay LocalTZA clock = JS.localDay LocalTZA now ->
  let memory := newMemory trim clock dateLabel inputMood wishTexts image in
  match memories with
  | [] => calculateStreak LocalTZA now [memory] = 1
  | latest :: _ =>
      forall d,
        (exists ts, JS.Number (id latest) = Some ts /\ 0 <= ts <= JS.maxTime) ->
        calendarDay LocalTZA latest = Some d ->
        calculateStreak LocalTZA now (memory :: memories)
        = if (d =? JS.localDay LocalTZA now)%Z
          then calculateStreak LocalTZA now memories
          else if (d =? JS.localDay LocalTZA now - 1)%Z
               then calculateStreak LocalTZA now memories + 1
               else 1
  end.
Proof.
  intros Hzone Hclock Hnow Hsame memory.
  destruct (newMemory_calendarDay clock dateLabel inputMood wishTexts image Hclock)
    as [Hts Hday].
  fold memory in Hts, Hday. rewrite Hsame in Hday.
  set (dn := JS.localDay LocalTZA now) in *.
  assert (Hhead : forall rest,
             calculateStreak LocalTZA now (memory :: rest)
             = walkDays (Some (dn * JS.msPerDay - offset))
                        (map (dayStart LocalTZA) rest) 1).
  { intros rest. rewrite calculateStreak_on_dayStarts. cbn [map].
    rewrite (dayStart_fixed LocalTZA offset Hzone memory dn Hts Hday),
            (today_fixed LocalTZA offset Hzone now Hnow), (streakDays_head offset).
    fold dn. now rewrite Z.eqb_refl. }
  destruct memories as [|latest rest].
  - rewrite Hhead. reflexivity.
  - intros d Hlts Hlday. rewrite Hhead. cbn [map].
    rewrite (dayStart_fixed LocalTZA offset Hzone latest d Hlts Hlday),
            (walkDays_step offset).
    rewrite calculateStreak_on_dayStarts. cbn [map].
    rewrite (dayStart_fixed LocalTZA offset Hzone latest d Hlts Hlday),
            (today_fixed LocalTZA offset Hzone now Hnow), (streakDays_head offset).
    fold dn.
    destruct (Z.eqb_spec d dn) as [->|Hne].
    + destruct (Z.eqb_spec dn (dn - 1)); [lia|]. reflexivity.
    + destruct (Z.eqb_spec d (dn - 1)) as [->|Hne']; cbn [orb]; [|reflexivity].
      apply (walkDays_shift _ _ 1 1).
Qed.

(** X24. In every zone whose offsets stay within a day of each other, a
    post made and counted on one calendar day leaves a streak of 1 at
    least. *)
Theorem post_gives_a_streak
    (now clock : Z) (dateLabel inputMood : string)
    (wishTexts : list string) (image : string) (memories : list Memory) :
  zoneSpanUnderDay LocalTZA ->
  0 <= clock <= JS.maxTime ->
  0 <= now <= JS.maxTime - JS.msPerDay ->
  JS.localDay LocalTZA clock = JS.localDay LocalTZA now ->
  1 <= calculateStreak LocalTZA now
         (newMemory trim clock dateLabel inputMood wishTexts image :: memories).
Proof.
  intros Hspan Hclock Hnow Hsame.
  destruct (newMemory_calendarDay clock dateLabel inputMood wishTexts image Hclock)
    as [_ Hday].
  rewrite calculateStreak_on_dayStarts. cbn [map streakDays].
  rewrite dayStart_of_calendarDay, Hday, Hsame, midnightOf_now.
  unfold JS.maxTime, JS.msPerDay in Hnow.
  rewrite (TimeClip_in_range now) by (unfold JS.maxTime; lia).
  assert (Hvalid : Z.abs (JS.UTC LocalTZA (JS.localDay LocalTZA now * JS.msPerDay))
                   <= JS.maxTime).
  { unfold JS.UTC, JS.localDay, JS.Day, JS.LocalTime.
    pose proof (Z.mul_div_le (now + LocalTZA now true) JS.msPerDay eq_refl) as Hlo.
    pose proof (Z.mul_succ_div_gt (now + LocalTZA now true) JS.msPerDay eq_refl) as Hhi.
    set (D := (now + LocalTZA now true) / JS.msPerDay) in *.
    specialize (Hspan now (D * JS.msPerDay) true false).
    unfold JS.msPerDay, JS.maxTime in *. lia. }
  rewrite (TimeClip_in_range _ Hvalid). cbn [JS.strictEq]. rewrite Z.eqb_refl.
  apply walkDays_bounds.
Qed.

(** X25. When [memories] is sorted by id, newest first, and the clock
    reading is not below any stored id, the list [handlePost] hands to
    [calculateStreak] is sorted too. *)
Theorem post_keeps_list_sorted
    (clock : Z) (dateLabel inputMood : string)
    (wishTexts : list string) (image : string) (memories : list Memory) :
  0 <= clock ->
  sortedByIdDesc memories ->
  (forall m, In m memories -> exists n, JS.Number (id m) = Some n /\ n <= clock) ->
  sortedByIdDesc (newMemory trim clock dateLabel inputMood wishTexts image :: memories).
Proof.
  intros Hclock Hsorted Hbelow. unfold sortedByIdDesc.
  constructor; [exact Hsorted|].
  apply Forall_forall. intros m Hm.
  destruct (Hbelow m Hm) as (n & Hn & Hle).
  exists clock, n. cbn. split; [now apply Number_of_numberToString|]. now split.
Qed.

End PostFacts.

Lemma handlePost_effect_witness :
  exists st' w' memory,
    handlePost zoneUTC trimNothing londonNow 1743418800000 "Mar 31"
               (Some "data:image/png;base64,AAAA") "" []
               (mkAppState [mar30] 1) worldOffline
    = (Returns st', w')
    /\ appMemories st' = [memory; mar30]
    /\ mood memory <> ""%string
    /\ summary memory <> ""%string
    /\ JS.Number (id memory) = Some 1743418800000.
Proof.
  destruct (handlePost_effect zoneUTC trimNothing londonNow 1743418800000 "Mar 31"
              (Some "data:image/png;base64,AAAA") "" []
              (mkAppState [mar30] 1) worldOffline)
    as (st' & w' & Hrun & memory & Hlist & _ & _ & _ & _ & _ & Hmood & Hsum & Hid).
  - lia.
  - exists st', w', memory.
    split; [exact Hrun|]. split; [exact Hlist|]. split; [exact Hmood|].
    split; [exact Hsum | exact Hid].
Defined.

Lemma post_streak_at_fixed_offset_witness :
  calculateStreak zoneRiyadh londonNow
    (newMemory trimNothing 1743418800000 "Mar 31" "" [] "data:image/png;base64,AAAA"
       :: [mar30; mar29])
  = calculateStreak zoneRiyadh londonNow [mar30; mar29] + 1.
Proof.
  apply (post_streak_at_fixed_offset zoneRiyadh trimNothing 10800000 londonNow
           1743418800000 "Mar 31" "" [] "data:image/png;base64,AAAA" [mar30; mar29]
           zoneRiyadh_fixed
           ltac:(unfold JS.maxTime; lia)
           ltac:(unfold londonNow, JS.maxTime; lia)
           eq_refl 20177).
  - literal_timestamp.
  - reflexivity.
Defined.

Lemma post_gives_a_streak_witness :
  1 <= calculateStreak zoneLondon londonNow
         (newMemory trimNothing 1743418800000 "Mar 31" "happy" []
                    "data:image/png;base64,AAAA" :: [mar30; mar29]).
Proof.
  apply (post_gives_a_streak zoneLondon trimNothing).
  - exact zoneLondon_span.
  - unfold JS.maxTime. lia.
  - unfold londonNow, JS.maxTime, JS.msPerDay. lia.
  - reflexivity.
Defined.

Lemma post_keeps_list_sorted_witness :
  sortedByIdDesc
    (newMemory trimNothing 1743418800000 "Mar 31" "happy" []
               "data:image/png;base64,AAAA" :: [mar30; mar29]).
Proof.
  apply (post_keeps_list_sorted trimNothing).
  - lia.
  - literal_sorted.
  - intros m [<-|[<-|[]]]; eexists; (split; [vm_compute; reflexivity | lia]).
Defined.

(* ------------------------------------------------------------------ *)
(** ** Migration of the legacy entries                                 *)
(* ------------------------------------------------------------------ *)

(** X26. The loop that migrates the legacy entries saves them all: the
    local store keeps one record per key; of the legacy entries that share
    an id the last one is stored; records under other ids stay as they
    were; a push is started for every legacy entry, in order. *)
Theorem migrateMemories_last_writer_wins (parsed : list Memory) :
  forall w : World,
    keysAscending (idb w) ->
    exists w',
      migrateMemories parsed w = (Returns tt, w')
      /\ keysAscending (idb w')
      /\ inflight w' = (inflight w ++ parsed)%list
      /\ cloudTable w' = cloudTable w
      /\ (forall front m back,
            parsed = (front ++ m :: back)%list ->
            ~ In (id m) (map id back) -> In m (idb w'))
      /\ (forall x, ~ In (id x) (map id parsed) ->
                    (In x (idb w') <-> In x (idb w))).
Proof.
  induction parsed as [|m0 rest IH]; intros w Hinv.
  - exists w. cbn. rewrite app_nil_r. repeat split; auto.
    intros [|? ?] ? ? ?; discriminate.
  - cbn [migrateMemories]. unfold bind at 1.
    set (w1 := setInflight (inflight w ++ [m0]) (setIdb (idbPut m0 (idb w)) w)).
    change (saveMemory m0 w) with (Returns tt, w1).
    destruct (IH w1 (idbPut_keysAscending m0 (idb w) Hinv))
      as (w' & Hrun & Hinv' & Hq & Ht & Hlast & Hother).
    exists w'. split; [exact Hrun|]. split; [exact Hinv'|].
    split; [|split; [exact Ht|split]].
    + rewrite Hq. cbn. now rewrite <- app_assoc.
    + intros [|f front] m back Hsplit Hfresh; cbn in Hsplit; injection Hsplit as -> ->.
      * apply Hother; [exact Hfresh|]. cbn. apply idbPut_In.
      * now apply (Hlast front m back).
    + intros x Hx. cbn in Hx.
      rewrite Hother by tauto. cbn.
      rewrite (idbPut_In_iff m0 (idb w) x Hinv).
      split; [intros [->|[Hin _]]; [exfalso; apply Hx; now left | exact Hin]|].
      intros Hin. right. split; [exact Hin|]. intros Heq. apply Hx. left. now symmetry.
Qed.

Lemma migrateMemories_last_writer_wins_witness :
  exists w',
    migrateMemories [entry "10"; mkMemory "10" "Jan 6" "sad" "" ""; entry "11"]
                    (mkWorld [entry "9"] "anon-key" [] 0 [])
    = (Returns tt, w')
    /\ In (mkMemory "10" "Jan 6" "sad" "" "") (idb w')
    /\ In (entry "11") (idb w')
    /\ In (entry "9") (idb w').
Proof.
  destruct (migrateMemories_last_writer_wins
              [entry "10"; mkMemory "10" "Jan 6" "sad" "" ""; entry "11"]
              (mkWorld [entry "9"] "anon-key" [] 0 []))
    as (w' & Hrun & _ & _ & _ & Hlast & Hother).
  - unfold keysAscending. cbn. repeat constructor.
  - exists w'. split; [exact Hrun|]. split; [|split].
    + apply (Hlast [entry "10"] (mkMemory "10" "Jan 6" "sad" "" "") [entry "11"]);
        [reflexivity|]. cbn. intros [H|[]]. discriminate H.
    + apply (Hlast [entry "10"; mkMemory "10" "Jan 6" "sad" "" ""] (entry "11") []);
        [reflexivity|]. cbn. tauto.
    + apply Hother; [|now left]. cbn. intros [H|[H|[H|[]]]]; discriminate H.
Defined.

(* ------------------------------------------------------------------ *)
(** ** Loading screen                                                  *)
(* ------------------------------------------------------------------ *)

Lemma loading_done_stays (k : nat) :
  Nat.iter (15 + k) LoadingScreen.timeoutFires LoadingScreen.initial
  = LoadingScreen.mkState LoadingScreen.TEXT 14 true.
Proof.
  induction k as [|k IH]; [reflexivity|].
  rewrite Nat.add_succ_r, Nat.iter_succ, IH. reflexivity.
Qed.

(** X27. The loading screen types its text one character per timeout:
    after [n] timeouts, [n] up to the length of the text, it shows the
    first [n] characters and has not called [onComplete]; the timeout
    after the last character calls [onComplete], with the whole text
    shown, and nothing changes afterwards. *)
Theorem loading_screen_types_prefixes (n : nat) :
  Nat.iter n LoadingScreen.timeoutFires LoadingScreen.initial
  = if (n <=? String.length LoadingScreen.TEXT)%nat
    then LoadingScreen.mkState (substring 0 n LoadingScreen.TEXT) n false
    else LoadingScreen.mkState LoadingScreen.TEXT
                               (String.length LoadingScreen.TEXT) true.
Proof.
  do 15 (destruct n as [|n]; [reflexivity|]).
  exact (loading_done_stays n).
Qed.

(* ------------------------------------------------------------------ *)
(** ** A same-day entry across the end of summer time                  *)
(* ------------------------------------------------------------------ *)


(** The calendar of St. John's steps back on that night: the later of two
    instants falls on the earlier day. *)
Example zoneStJohns_calendar_steps_back : ~ zoneDayMonotone zoneStJohns.
Proof.
  intros Hmono.
  specialize (Hmono 1289097030000 1289098800000 ltac:(lia)).
  vm_compute in Hmono. now apply Hmono.
Qed.
